(** * pluggy.hooks: hook callers, their call chains and call history

    A shallow embedding of [src/pluggy/hooks.py].  Python objects that the
    module mutates in place ([_HookCaller] instances) are threaded through a
    small state-and-exception monad; exceptions keep the state reached when
    they were raised, as in Python.  The dispatcher ([hook_execute]) and the
    result callbacks ([proc]) are supplied from outside the module and are
    section variables acting on an external world. *)

From stdpp Require Import base option list strings gmap sorting.

Set Default Proof Using "Type".
Open Scope string_scope.

(** ** Python values that the module inspects *)

(** Values stored in option dictionaries: the module only ever tests them for
    truthiness or passes them on. *)
Inductive PyVal :=
  | PyNone
  | PyBool (b : bool)
  | PyWarning (msg : string).

Definition truthy (v : PyVal) : bool :=
  match v with
  | PyNone => false
  | PyBool b => b
  | PyWarning _ => true
  end.

(** Exceptions.  [Raised e] is an exception coming from a plugin, the
    dispatcher or a callback. *)
Inductive exn (X : Type) :=
  | AssertionError
  | ValueError (msg : string)
  | TypeError (msg : string)
  | AttributeError (attr : string)
  | Raised (e : X).
Arguments AssertionError {X}.
Arguments ValueError {X} msg.
Arguments TypeError {X} msg.
Arguments AttributeError {X} attr.
Arguments Raised {X} e.

Inductive result (E A : Type) :=
  | Ok (a : A)
  | Raise (e : E).
Arguments Ok {E A} a.
Arguments Raise {E A} e.

Definition is_ok {E A} (r : result E A) : bool :=
  match r with Ok _ => true | Raise _ => false end.

(** ** Callables as [inspect] sees them

    [varnames] first resolves a class to its [__init__] and a callable object
    to its [__call__]; the record describes the function object that is
    finally handed to [inspect.getfullargspec].  The function's [__dict__] is
    split by entry type: the [_varnames] memo and the option dictionaries
    stored by the markers. *)
Record Callable := {
  varnames_cache : option (list string * list string);
  fattrs : gmap string (gmap string PyVal);
  argspec : option (list string * nat);
  ismethod : bool;
  qualname_dotted : bool
}.

Definition setattr (func : Callable) (key : string) (d : gmap string PyVal) : Callable :=
  {| varnames_cache := varnames_cache func;
     fattrs := <[key := d]> (fattrs func);
     argspec := argspec func;
     ismethod := ismethod func;
     qualname_dotted := qualname_dotted func |}.

Definition str_in (x : string) (l : list string) : bool :=
  bool_decide (x ∈ l).

(** [varnames(func)]: positional names and names with defaults.  [argspec]
    is [None] when [inspect] raises [TypeError]; otherwise it carries
    [spec.args] and [len(spec.defaults)].  The memo written at the end only
    stores the value just computed and is not modelled as a write. *)
Definition varnames {X} (func : Callable) : result (exn X) (list string * list string) :=
  match varnames_cache func with
  | Some cached => Ok cached
  | None =>
    match argspec func with
    | None => Ok ([], [])
    | Some (spec_args, ndefaults) =>
      let '(args, defaults) :=
        match ndefaults with
        | 0 => (spec_args, [])
        | _ => (take (length spec_args - ndefaults) spec_args,
                drop (length spec_args - ndefaults) spec_args)
        end in
      let args :=
        match args with
        | [] => args
        | a0 :: rest =>
          if ismethod func || (qualname_dotted func && bool_decide (a0 = "self"))
          then rest else args
        end in
      if str_in "self" args then Raise AssertionError
      else Ok (args, defaults)
    end
  end.

(** ** HookspecMarker *)

Definition setattr_hookspec_opts {X} (project_name : string)
    (firstresult historic warn_on_impl : PyVal) (func : Callable)
    : result (exn X) Callable :=
  if truthy historic && truthy firstresult
  then Raise (ValueError "cannot have a historic firstresult hook")
  else Ok (setattr func (project_name ++ "_spec")
             (<["firstresult" := firstresult]>
              (<["historic" := historic]>
               (<["warn_on_impl" := warn_on_impl]> ∅)))).

(** [HookspecMarker.__call__]: applied to a function it marks it at once,
    otherwise it returns the decorator. *)
Definition HookspecMarker_call {X} (project_name : string)
    (function : option Callable) (firstresult historic warn_on_impl : PyVal)
    : result (exn X) Callable + (Callable -> result (exn X) Callable) :=
  match function with
  | Some f => inl (setattr_hookspec_opts project_name firstresult historic warn_on_impl f)
  | None => inr (setattr_hookspec_opts project_name firstresult historic warn_on_impl)
  end.

(** ** Hook implementations and hook callers *)

(** The option dictionary of an implementation after
    [normalize_hookimpl_opts]; [call_extra] builds one without the
    [optionalhook] key. *)
Record ImplOpts := {
  hookwrapper : bool;
  optionalhook : option bool;
  tryfirst : bool;
  trylast : bool
}.

Inductive Multicall := _multicall | _legacymulticall.

Inductive WarningCategory := UserWarning | DeprecationWarning.

Section Caller.
Context {Value Plugin Proc UserExn World : Type} `{EqDecision Plugin}.

Local Abbreviation Kwargs := (gmap string Value).
Local Abbreviation Exn := (exn UserExn).

(** [HookImpl]: the attributes set by [HookImpl.__init__]; the flags of
    [opts] are also reachable as attributes of the object itself. *)
Record HookImpl := {
  function : Callable;
  argnames : list string;
  kwargnames : list string;
  plugin : option Plugin;
  opts : ImplOpts;
  plugin_name : string
}.

Definition HookImpl_init (plugin : option Plugin) (plugin_name : string)
    (function : Callable) (hook_impl_opts : ImplOpts) : result Exn HookImpl :=
  match varnames function with
  | Raise e => Raise e
  | Ok (args, kwargs) =>
    Ok {| function := function; argnames := args; kwargnames := kwargs;
          plugin := plugin; opts := hook_impl_opts; plugin_name := plugin_name |}
  end.

(** [_HookCaller]: [hc_argnames] and [hc_kwargnames] are its [argnames] and
    [kwargnames] attributes, named apart from the fields of [HookImpl];
    [_call_history] and [warn_on_impl] are [None] as long as the attribute
    does not exist; [_hookexec] is the section variable below.  Dictionaries
    and lists are values here: the history holds the content of the keyword
    arguments it was given. *)
Record HookCaller := {
  name : string;
  _wrappers : list HookImpl;
  _nonwrappers : list HookImpl;
  _specmodule_or_class : option (gmap string Callable);
  hc_argnames : option (list string);
  hc_kwargnames : option (list string);
  multicall : Multicall;
  spec_opts : gmap string PyVal;
  _call_history : option (list (Kwargs * option Proc));
  warn_on_impl : option PyVal
}.

Inductive Event :=
  | Warned (category : WarningCategory) (msg : string) (names : gset string)
  | Executed (hook : HookCaller) (methods : list HookImpl)
             (kwargs : option Kwargs) (res : result Exn (list Value))
  | Called (proc : Proc) (x : Value) (res : result Exn unit).

(** The collaborators: the dispatcher given to the constructor, called as
    [_hookexec(self, methods, kwargs)], and the application of a result
    callback.  Both may change the world and may raise; neither touches the
    caller's own attributes.  The log records every warning, every dispatch
    (with the caller it was given) and every callback application. *)
Variable _hookexec :
  World -> HookCaller -> list HookImpl -> option Kwargs ->
  World * result Exn (list Value).
Variable apply_proc : World -> Proc -> Value -> World * result Exn unit.

Record State := {
  self : HookCaller;
  world : World;
  log : list Event
}.

Definition M (A : Type) : Type := State -> result Exn A * State.

Definition ret {A} (a : A) : M A := fun s => (Ok a, s).
Definition bind {A B} (m : M A) (k : A -> M B) : M B :=
  fun s => match m s with
           | (Ok a, s') => k a s'
           | (Raise e, s') => (Raise e, s')
           end.
Definition raise {A} (e : Exn) : M A := fun s => (Raise e, s).
Definition get_self : M HookCaller := fun s => (Ok (self s), s).
Definition update_self (f : HookCaller -> HookCaller) : M unit :=
  fun s => (Ok tt, {| self := f (self s); world := world s; log := log s |}).
Definition emit (ev : Event) : M unit :=
  fun s => (Ok tt, {| self := self s; world := world s; log := log s ++ [ev] |}).
Definition assert_ (b : bool) : M unit :=
  if b then ret tt else raise AssertionError.
Definition lift {A} (r : result Exn A) : M A := fun s => (r, s).

(** [try: body finally: cleanup]: the cleanup always runs; its own
    exception, if any, replaces the outcome of the body. *)
Definition try_finally {A} (body : M A) (cleanup : M unit) : M A :=
  fun s => let '(r, s1) := body s in
           match cleanup s1 with
           | (Ok _, s2) => (r, s2)
           | (Raise e, s2) => (Raise e, s2)
           end.

Fixpoint for_each {A} (xs : list A) (body : A -> M unit) : M unit :=
  match xs with
  | [] => ret tt
  | x :: rest => bind (body x) (fun _ => for_each rest body)
  end.

(** [warnings.warn] under the default filters: recorded, never raised. *)
Definition warn (category : WarningCategory) (msg : string) (names : gset string) : M unit :=
  emit (Warned category msg names).

Definition hookexec (methods : list HookImpl) (kwargs : option Kwargs) : M (list Value) :=
  fun s => let '(w, r) := _hookexec (world s) (self s) methods kwargs in
           (r, {| self := self s; world := w;
                  log := log s ++ [Executed (self s) methods kwargs r] |}).

Definition call_proc (proc : Proc) (x : Value) : M unit :=
  fun s => let '(w, r) := apply_proc (world s) proc x in
           (r, {| self := self s; world := w; log := log s ++ [Called proc x r] |}).

#[local] Instance M_ret : MRet M := @ret.
#[local] Instance M_bind : MBind M := fun A B k m => bind m k.

(** ** Attribute updates on a caller *)

Definition set_wrappers (ws : list HookImpl) (hc : HookCaller) : HookCaller :=
  {| name := name hc; _wrappers := ws; _nonwrappers := _nonwrappers hc;
     _specmodule_or_class := _specmodule_or_class hc;
     hc_argnames := hc_argnames hc; hc_kwargnames := hc_kwargnames hc;
     multicall := multicall hc; spec_opts := spec_opts hc;
     _call_history := _call_history hc; warn_on_impl := warn_on_impl hc |}.

Definition set_nonwrappers (nws : list HookImpl) (hc : HookCaller) : HookCaller :=
  {| name := name hc; _wrappers := _wrappers hc; _nonwrappers := nws;
     _specmodule_or_class := _specmodule_or_class hc;
     hc_argnames := hc_argnames hc; hc_kwargnames := hc_kwargnames hc;
     multicall := multicall hc; spec_opts := spec_opts hc;
     _call_history := _call_history hc; warn_on_impl := warn_on_impl hc |}.

Definition set_specmodule (sm : gmap string Callable) (hc : HookCaller) : HookCaller :=
  {| name := name hc; _wrappers := _wrappers hc; _nonwrappers := _nonwrappers hc;
     _specmodule_or_class := Some sm;
     hc_argnames := hc_argnames hc; hc_kwargnames := hc_kwargnames hc;
     multicall := multicall hc; spec_opts := spec_opts hc;
     _call_history := _call_history hc; warn_on_impl := warn_on_impl hc |}.

Definition set_names (args kwargs : list string) (hc : HookCaller) : HookCaller :=
  {| name := name hc; _wrappers := _wrappers hc; _nonwrappers := _nonwrappers hc;
     _specmodule_or_class := _specmodule_or_class hc;
     hc_argnames := Some args; hc_kwargnames := Some kwargs;
     multicall := multicall hc; spec_opts := spec_opts hc;
     _call_history := _call_history hc; warn_on_impl := warn_on_impl hc |}.

Definition set_multicall (mc : Multicall) (hc : HookCaller) : HookCaller :=
  {| name := name hc; _wrappers := _wrappers hc; _nonwrappers := _nonwrappers hc;
     _specmodule_or_class := _specmodule_or_class hc;
     hc_argnames := hc_argnames hc; hc_kwargnames := hc_kwargnames hc;
     multicall := mc; spec_opts := spec_opts hc;
     _call_history := _call_history hc; warn_on_impl := warn_on_impl hc |}.

Definition set_spec_opts (so : gmap string PyVal) (hc : HookCaller) : HookCaller :=
  {| name := name hc; _wrappers := _wrappers hc; _nonwrappers := _nonwrappers hc;
     _specmodule_or_class := _specmodule_or_class hc;
     hc_argnames := hc_argnames hc; hc_kwargnames := hc_kwargnames hc;
     multicall := multicall hc; spec_opts := so;
     _call_history := _call_history hc; warn_on_impl := warn_on_impl hc |}.

Definition set_call_history (h : list (Kwargs * option Proc)) (hc : HookCaller) : HookCaller :=
  {| name := name hc; _wrappers := _wrappers hc; _nonwrappers := _nonwrappers hc;
     _specmodule_or_class := _specmodule_or_class hc;
     hc_argnames := hc_argnames hc; hc_kwargnames := hc_kwargnames hc;
     multicall := multicall hc; spec_opts := spec_opts hc;
     _call_history := Some h; warn_on_impl := warn_on_impl hc |}.

Definition set_warn_on_impl (w : PyVal) (hc : HookCaller) : HookCaller :=
  {| name := name hc; _wrappers := _wrappers hc; _nonwrappers := _nonwrappers hc;
     _specmodule_or_class := _specmodule_or_class hc;
     hc_argnames := hc_argnames hc; hc_kwargnames := hc_kwargnames hc;
     multicall := multicall hc; spec_opts := spec_opts hc;
     _call_history := _call_history hc; warn_on_impl := Some w |}.

(** ** _HookCaller *)

Definition has_spec (hc : HookCaller) : bool :=
  match _specmodule_or_class hc with Some _ => true | None => false end.

Definition is_historic (hc : HookCaller) : bool :=
  match _call_history hc with Some _ => true | None => false end.

(** [set_specification]: [spec_opts] is [None] when the constructor is
    given a specification without options; [dict.update(None)] then raises. *)
Definition set_specification (specmodule_or_class : gmap string Callable)
    (opts : option (gmap string PyVal)) : M unit :=
  hc ← get_self;
  assert_ (negb (has_spec hc));;
  update_self (set_specmodule specmodule_or_class);;
  match specmodule_or_class !! name hc with
  | None => raise (AttributeError (name hc))
  | Some specfunc =>
    '(args, kwargs) ← lift (varnames specfunc);
    update_self (set_names ("__multicall__" :: args) kwargs);;
    match opts with
    | None => raise (TypeError "'NoneType' object is not iterable")
    | Some opts =>
      update_self (fun hc => set_spec_opts (opts ∪ spec_opts hc) hc);;
      (if truthy (default PyNone (opts !! "historic"))
       then update_self (set_call_history [])
       else ret tt);;
      update_self (set_warn_on_impl (default PyNone (opts !! "warn_on_impl")))
    end
  end.

(** The attributes assigned by [__init__] before the optional binding. *)
Definition fresh (nm : string) (opts : option (gmap string PyVal)) : HookCaller :=
  {| name := nm; _wrappers := []; _nonwrappers := [];
     _specmodule_or_class := None;
     hc_argnames := None; hc_kwargnames := None;
     multicall := _multicall; spec_opts := default ∅ opts;
     _call_history := None; warn_on_impl := None |}.

Definition __init__ (nm : string) (specmodule_or_class : option (gmap string Callable))
    (opts : option (gmap string PyVal)) : M unit :=
  update_self (fun _ => fresh nm opts);;
  match specmodule_or_class with
  | Some sm => set_specification sm opts
  | None => ret tt
  end.


(** [remove(wrappers)] of [_remove_plugin]: the index of the first entry
    owned by [plugin] is found by the enumeration, the entry is deleted and
    [True] returned; falling off the loop returns [None]. *)
Fixpoint first_owned (pl : option Plugin) (i : nat) (rest : list HookImpl) : option nat :=
  match rest with
  | [] => None
  | method :: rest' =>
    if bool_decide (plugin method = pl) then Some i
    else first_owned pl (S i) rest'
  end.

Definition remove (pl : option Plugin) (wrappers : list HookImpl)
    : list HookImpl * option bool :=
  match first_owned pl 0 wrappers with
  | Some i => (delete i wrappers, Some true)
  | None => (wrappers, None)
  end.

Definition _remove_plugin (pl : option Plugin) : M unit :=
  hc ← get_self;
  let '(ws, found) := remove pl (_wrappers hc) in
  update_self (set_wrappers ws);;
  match found with
  | Some _ => ret tt
  | None =>
    let '(nws, found') := remove pl (_nonwrappers hc) in
    update_self (set_nonwrappers nws);;
    match found' with
    | Some _ => ret tt
    | None => raise (ValueError "plugin not found")
    end
  end.

(** [methods.insert(i, x)] for [0 <= i <= len(methods)]. *)
Definition list_insert_at {A} (i : nat) (x : A) (l : list A) : list A :=
  take i l ++ x :: drop i l.

(** The backward scan of [_add_hookimpl]; [k] stands for [i + 1], so that
    the loop variable reaching [-1] is [k = 0], and the result is the
    insertion index [i + 1].  The scan starts at [len(methods) - 1], so the
    index is always in range. *)
Fixpoint last_non_tryfirst (methods : list HookImpl) (k : nat) : nat :=
  match k with
  | 0 => 0
  | S i =>
    match methods !! i with
    | Some m => if tryfirst (opts m) then last_non_tryfirst methods i else S i
    | None => S i
    end
  end.

Definition add_to (methods : list HookImpl) (hookimpl : HookImpl) : list HookImpl :=
  if trylast (opts hookimpl) then list_insert_at 0 hookimpl methods
  else if tryfirst (opts hookimpl) then methods ++ [hookimpl]
  else list_insert_at (last_non_tryfirst methods (length methods)) hookimpl methods.

Definition _add_hookimpl (hookimpl : HookImpl) : M unit :=
  (if hookwrapper (opts hookimpl)
   then update_self (fun hc => set_wrappers (add_to (_wrappers hc) hookimpl) hc)
   else update_self (fun hc => set_nonwrappers (add_to (_nonwrappers hc) hookimpl) hc));;
  if str_in "__multicall__" (argnames hookimpl)
  then
    warn DeprecationWarning
      "Support for __multicall__ is now deprecated and will beremoved in an upcoming release." ∅;;
    update_self (set_multicall _legacymulticall)
  else ret tt.

(** [__call__]: [args] are the positional arguments, [kwargs] the keyword
    arguments of the call. *)
Definition __call__ (args : list Value) (kwargs : Kwargs) : M (list Value) :=
  match args with
  | _ :: _ => raise (TypeError "hook calling supports only keyword arguments")
  | [] =>
    hc ← get_self;
    assert_ (negb (is_historic hc));;
    match hc_argnames hc with
    | Some ((_ :: _) as names) =>
      let notincall : gset string :=
        list_to_set names ∖ {["__multicall__"]} ∖ dom kwargs in
      if bool_decide (notincall = ∅) then ret tt
      else warn UserWarning
             "Argument(s) which are declared in the hookspec can not be found in this hook call"
             notincall
    | _ => ret tt
    end;;
    hookexec (_nonwrappers hc ++ _wrappers hc) (Some kwargs)
  end.

(** [call_historic(proc=None, kwargs=None)]. *)
Definition call_historic (proc : option Proc) (kwargs : option Kwargs) : M unit :=
  hc ← get_self;
  match _call_history hc with
  | None => raise (AttributeError "_call_history")
  | Some history =>
    update_self (set_call_history (history ++ [(default ∅ kwargs, proc)]));;
    res ← hookexec (_nonwrappers hc ++ _wrappers hc) kwargs;
    match proc with
    | None => ret tt
    | Some p => for_each res (call_proc p)
    end
  end.

Definition temp_opts : ImplOpts :=
  {| hookwrapper := false; optionalhook := None; tryfirst := false; trylast := false |}.

Definition restore (old : list HookImpl * list HookImpl) : M unit :=
  update_self (fun hc => set_wrappers (snd old) (set_nonwrappers (fst old) hc)).

(** One turn of the loop of [call_extra]. *)
Definition add_extra (method : Callable) : M unit :=
  hookimpl ← lift (HookImpl_init None "<temp>" method temp_opts);
  _add_hookimpl hookimpl.

(** [call_extra(methods, kwargs)]. *)
Definition call_extra (methods : list Callable) (kwargs : Kwargs) : M (list Value) :=
  hc ← get_self;
  let old := (_nonwrappers hc, _wrappers hc) in
  for_each methods add_extra;;
  try_finally (__call__ [] kwargs) (restore old).

(** One turn of the loop of [_maybe_apply_history]. *)
Definition replay_call (method : HookImpl) (call : Kwargs * option Proc) : M unit :=
  let '(kwargs, proc) := call in
  res ← hookexec [method] (Some kwargs);
  match res, proc with
  | x :: _, Some p => call_proc p x
  | _, _ => ret tt
  end.

(** [_maybe_apply_history(method)]. *)
Definition _maybe_apply_history (method : HookImpl) : M unit :=
  hc ← get_self;
  match _call_history hc with
  | Some history => for_each history (replay_call method)
  | None => ret tt
  end.

(** ** Sequences of operations on one caller

    Client code calling the methods one after the other; an exception raised
    by one of them leaves the caller as it was at that point and the client
    goes on. *)
Inductive Op :=
  | OpSetSpecification (sm : gmap string Callable) (opts : option (gmap string PyVal))
  | OpRemovePlugin (pl : option Plugin)
  | OpAddHookimpl (hookimpl : HookImpl)
  | OpCall (args : list Value) (kwargs : Kwargs)
  | OpCallHistoric (proc : option Proc) (kwargs : option Kwargs)
  | OpCallExtra (methods : list Callable) (kwargs : Kwargs)
  | OpMaybeApplyHistory (method : HookImpl).

(** Removal as the specification words it: [nonWrappers] is searched before
    [wrappers]. *)
Definition remove_stated (pl : option Plugin) (hc : HookCaller) : result Exn HookCaller :=
  match remove pl (_nonwrappers hc) with
  | (nws, Some _) => Ok (set_nonwrappers nws hc)
  | (_, None) =>
    match remove pl (_wrappers hc) with
    | (ws, Some _) => Ok (set_wrappers ws hc)
    | (_, None) => Raise (ValueError "plugin not found")
    end
  end.


Definition is_warning (ev : Event) : bool :=
  match ev with Warned _ _ _ => true | _ => false end.

(** A logged event respects the legacy switch when, if it is a dispatch,
    the caller handed to the dispatcher has [multicall] set to
    [_legacymulticall]. *)
Definition dispatches_legacy (ev : Event) : Prop :=
  match ev with
  | Executed hc _ _ _ => multicall hc = _legacymulticall
  | _ => True
  end.

(** The caller is switched to the legacy multicall and every event logged
    after [base] respects the switch. *)
Definition legacy_since (base : list Event) (s : State) : Prop :=
  multicall (self s) = _legacymulticall ∧
  ∃ evs, log s = (base ++ evs)%list ∧ Forall dispatches_legacy evs.

Definition keeps_legacy {A} (base : list Event) (m : M A) : Prop :=
  forall s, legacy_since base s -> legacy_since base (snd (m s)).

Definition run_op (op : Op) (s : State) : State :=
  match op with
  | OpSetSpecification sm opts => snd (set_specification sm opts s)
  | OpRemovePlugin pl => snd (_remove_plugin pl s)
  | OpAddHookimpl hookimpl => snd (_add_hookimpl hookimpl s)
  | OpCall args kwargs => snd (__call__ args kwargs s)
  | OpCallHistoric proc kwargs => snd (call_historic proc kwargs s)
  | OpCallExtra methods kwargs => snd (call_extra methods kwargs s)
  | OpMaybeApplyHistory method => snd (_maybe_apply_history method s)
  end.

Definition run_ops (ops : list Op) (s : State) : State :=
  foldl (fun s op => run_op op s) s ops.

End Caller.

(** ** Orders on a registration sequence *)

Section ChainOrder.
Context {Plugin : Type}.
Implicit Types (h : @HookImpl Plugin) (regs : list (@HookImpl Plugin)).

Definition is_tryfirst h : bool := tryfirst (opts h).
Definition is_trylast h : bool := trylast (opts h).
Definition is_normal h : bool := negb (trylast (opts h)) && negb (tryfirst (opts h)).
Definition only_tryfirst h : bool := negb (trylast (opts h)) && tryfirst (opts h).
Definition contradictory h : bool := tryfirst (opts h) && trylast (opts h).
Definition is_wrapper h : bool := hookwrapper (opts h).

(** The order stated by the specification: trylast, normal and tryfirst
    entries, each group in registration order. *)
Definition stated_order regs : list HookImpl :=
  filter (fun h => is_trylast h = true) regs
  ++ filter (fun h => is_normal h = true) regs
  ++ filter (fun h => is_tryfirst h = true) regs.

(** The order with the trylast group most recent first. *)
Definition chain_order regs : list HookImpl :=
  reverse (filter (fun h => is_trylast h = true) regs)
  ++ filter (fun h => is_normal h = true) regs
  ++ filter (fun h => only_tryfirst h = true) regs.

End ChainOrder.

(** ** HookimplMarker and the normalisation of its options *)

Definition setattr_hookimpl_opts (project_name : string)
    (hookwrapper optionalhook tryfirst trylast : PyVal) (func : Callable) : Callable :=
  setattr func (project_name ++ "_impl")
    (<["hookwrapper" := hookwrapper]>
     (<["optionalhook" := optionalhook]>
      (<["tryfirst" := tryfirst]>
       (<["trylast" := trylast]> ∅)))).

(** [HookimplMarker.__call__]: the decorator when no function is passed,
    the marked function otherwise. *)
Definition HookimplMarker_call (project_name : string) (function : option Callable)
    (hookwrapper optionalhook tryfirst trylast : PyVal)
    : Callable + (Callable -> Callable) :=
  match function with
  | None => inr (setattr_hookimpl_opts project_name hookwrapper optionalhook tryfirst trylast)
  | Some f => inl (setattr_hookimpl_opts project_name hookwrapper optionalhook tryfirst trylast f)
  end.

(** [dict.setdefault(key, value)], as the dictionary it leaves. *)
Definition setdefault (key : string) (value : PyVal) (d : gmap string PyVal)
    : gmap string PyVal :=
  match d !! key with
  | Some _ => d
  | None => <[key := value]> d
  end.

Definition normalize_hookimpl_opts (opts : gmap string PyVal) : gmap string PyVal :=
  setdefault "optionalhook" (PyBool false)
    (setdefault "hookwrapper" (PyBool false)
       (setdefault "trylast" (PyBool false)
          (setdefault "tryfirst" (PyBool false) opts))).

(** ** Relations between the caller before and after an operation *)

Section CallerRelations.
Context {Value Plugin Proc UserExn World : Type}.

(** Every run of [m] takes the caller to one related to it by [R]. *)
Definition caller_step (R : relation (@HookCaller Value Plugin Proc))
    {A} (m : @M Value Plugin Proc UserExn World A) : Prop :=
  forall s, R (self s) (self (snd (m s))).

Definition same_chains : relation (@HookCaller Value Plugin Proc) :=
  fun hc hc' =>
    _wrappers hc' = _wrappers hc /\ _nonwrappers hc' = _nonwrappers hc.

Definition same_multicall : relation (@HookCaller Value Plugin Proc) :=
  fun hc hc' => multicall hc' = multicall hc.

(** On a bound caller: it stays bound, a history only gets longer at its
    end and an absent history stays absent. *)
Definition history_grows : relation (@HookCaller Value Plugin Proc) :=
  fun hc hc' =>
    has_spec hc = true ->
    has_spec hc' = true /\
    match _call_history hc with
    | Some h => exists h', _call_history hc' = Some (h ++ h')%list
    | None => _call_history hc' = None
    end.

(** The place of an implementation in its list: trylast ones first, then
    the normal ones, then the tryfirst ones. *)
Definition priority (h : @HookImpl Plugin) : nat :=
  if trylast (opts h) then 0 else if tryfirst (opts h) then 2 else 1.

Definition prioritized (l : list (@HookImpl Plugin)) : Prop :=
  Forall (fun h => contradictory h = false) l /\
  StronglySorted (fun a b => (priority a <= priority b)%nat) l.

(** The form [set_specification] gives to [argnames]: absent, or a list
    that starts with [__multicall__]. *)
Definition argnames_wellformed (hc : @HookCaller Value Plugin Proc) : Prop :=
  match hc_argnames hc with
  | Some names => exists args, names = ("__multicall__" :: args)%list
  | None => True
  end.

(** The exception a logged dispatch or callback application ended with. *)
Definition raised_in (ev : @Event Value Plugin Proc UserExn) : option (exn UserExn) :=
  match ev with
  | Executed _ _ _ (Raise e) => Some e
  | Called _ _ (Raise e) => Some e
  | _ => None
  end.

(** The events of one replayed call on the caller [hc]: one dispatch over
    the new implementation alone with the recorded keyword arguments,
    followed by one application of the call's own callback to the first
    result when the dispatch returned a result and the call has a callback,
    and by nothing otherwise. *)
Definition replay_events (hc : @HookCaller Value Plugin Proc)
    (method : @HookImpl Plugin) (call : gmap string Value * option Proc)
    (evs : list (@Event Value Plugin Proc UserExn)) : Prop :=
  exists res,
    match res, snd call with
    | Ok (x :: _), Some p =>
      exists r, evs = [Executed hc [method] (Some (fst call)) res; Called p x r]
    | _, _ => evs = [Executed hc [method] (Some (fst call)) res]
    end.

(** A loop that logged [evs] and ended with [r] stopped at the first
    exception: when it returned nothing in [evs] raised, and when it raised
    [e] the last event of [evs] raised [e] and nothing before it did. *)
Definition stops_at_first_exception {A}
    (evs : list (@Event Value Plugin Proc UserExn))
    (r : result (exn UserExn) A) : Prop :=
  match r with
  | Ok _ => Forall (fun ev => raised_in ev = None) evs
  | Raise e =>
    exists before ev, evs = (before ++ [ev])%list /\
      Forall (fun ev => raised_in ev = None) before /\ raised_in ev = Some e
  end.

(** A property of the caller that, once it holds, still holds afterwards. *)
Definition preserved (P : @HookCaller Value Plugin Proc -> Prop)
    : relation (@HookCaller Value Plugin Proc) :=
  fun hc hc' => P hc -> P hc'.

(** Both chains satisfy a property of their own. *)
Definition chains_satisfy (Pw Pn : list (@HookImpl Plugin) -> Prop)
    (hc : @HookCaller Value Plugin Proc) : Prop :=
  Pw (_wrappers hc) /\ Pn (_nonwrappers hc).

(** The implementations added by a sequence of operations all satisfy [ok]. *)
Definition adds_only (ok : @HookImpl Plugin -> Prop)
    (op : @Op Value Plugin Proc) : Prop :=
  match op with
  | OpAddHookimpl h => ok h
  | _ => True
  end.

End CallerRelations.

(** ** A concrete world for the examples

    Values, plugin identities and callbacks are numbers; the world counts
    dispatches and accumulates what callbacks received.  The dispatcher runs
    the non-wrapper implementations in list order and returns the results
    most recent first; what an implementation returns is chosen by its
    plugin name. *)
Module Demo.

Abbreviation Impl := (@HookImpl nat).
Abbreviation Caller := (@HookCaller nat nat nat).
Abbreviation St := (@State nat nat nat string nat).

Definition fn (args : list string) : Callable :=
  {| varnames_cache := None; fattrs := ∅; argspec := Some (args, 0);
     ismethod := false; qualname_dotted := false |}.

Definition impl (pl : nat) (nm : string) (args : list string)
    (wrapper first last : bool) : Impl :=
  {| function := fn args; argnames := args; kwargnames := [];
     plugin := Some pl;
     opts := {| hookwrapper := wrapper; optionalhook := Some false;
                tryfirst := first; trylast := last |};
     plugin_name := nm |}.

Definition body (h : Impl) (kw : gmap string nat) : result (exn string) (option nat) :=
  if String.eqb (plugin_name h) "double" then Ok (Some (2 * default 0 (kw !! "x")))
  else if String.eqb (plugin_name h) "boom" then Raise (Raised "boom")
  else Ok None.

Fixpoint run (methods : list Impl) (kw : gmap string nat) (acc : list nat)
    : result (exn string) (list nat) :=
  match methods with
  | [] => Ok acc
  | h :: rest =>
    if hookwrapper (opts h) then run rest kw acc
    else match body h kw with
         | Ok (Some v) => run rest kw (v :: acc)
         | Ok None => run rest kw acc
         | Raise e => Raise e
         end
  end.

Definition exec (w : nat) (hc : Caller) (methods : list Impl)
    (kw : option (gmap string nat)) : nat * result (exn string) (list nat) :=
  (S w, run methods (default ∅ kw) []).

Definition apply (w : nat) (p x : nat) : nat * result (exn string) unit :=
  (w + p * x, Ok tt).

Definition start (hc : Caller) : St := {| self := hc; world := 0; log := [] |}.

(** Implementations of the examples: two trylast ones, a normal one, a
    tryfirst one, a wrapper, one marked both tryfirst and trylast, one that
    doubles [x], one that raises and one with the legacy parameter. *)
Definition late1 : Impl := impl 1 "late1" ["a"; "b"] false false true.
Definition late2 : Impl := impl 2 "late2" ["a"] false false true.
Definition plain : Impl := impl 3 "plain" ["a"; "b"] false false false.
Definition early : Impl := impl 4 "early" ["b"] false true false.
Definition around : Impl := impl 5 "around" [] true false false.
Definition both : Impl := impl 6 "both" [] false true true.
Definition double : Impl := impl 7 "double" ["x"] false false false.
Definition boom : Impl := impl 8 "boom" [] false false false.
Definition legacy : Impl := impl 9 "legacy" ["__multicall__"; "x"] false false false.

(** A plugin that owns a wrapper and two ordinary implementations. *)
Definition owned_wrapper : Impl := impl 10 "ten" [] true false false.
Definition owned_first : Impl := impl 10 "ten" ["a"] false false false.
Definition owned_second : Impl := impl 10 "ten" ["b"] false false false.

Definition with_chains (nws ws : list Impl) (hc : Caller) : Caller :=
  set_wrappers ws (set_nonwrappers nws hc).

Definition specs : gmap string Callable := {[ "myhook" := fn ["x"] ]}.

Definition unbound : Caller := fresh "myhook" None.

Definition historic (history : list (gmap string nat * option nat)) : Caller :=
  set_call_history history unbound.

(** A bound method with a defaulted parameter, and callers bound to [specs]
    with and without history. *)
Definition bound_method : Callable :=
  {| varnames_cache := None; fattrs := ∅; argspec := Some (["self"; "a"; "b"], 1);
     ismethod := true; qualname_dotted := true |}.

Definition bound : Caller :=
  self (snd (set_specification (UserExn:=string) specs (Some ∅) (start unbound))).

Definition bound_historic : Caller :=
  self (snd (set_specification (UserExn:=string) specs
               (Some {[ "historic" := PyBool true ]}) (start unbound))).

End Demo.

(** * Properties *)

Open Scope list_scope.

(** ** The insertion algorithm on lists *)

Section ChainOrderFacts.
Context {Plugin : Type}.
Implicit Types (h x m t : @HookImpl Plugin).
Implicit Types (methods regs a b l temps : list (@HookImpl Plugin)).

Lemma last_non_tryfirst_skip methods k n :
  (∀ i, k ≤ i < k + n → ∃ m, methods !! i = Some m ∧ is_tryfirst m = true) →
  last_non_tryfirst methods (k + n) = last_non_tryfirst methods k.
Proof.
  induction n as [|n IH]; intros Hrun.
  - by rewrite Nat.add_0_r.
  - replace (k + S n) with (S (k + n)) by lia. simpl.
    destruct (Hrun (k + n)) as (m & -> & Hm); [lia|].
    unfold is_tryfirst in Hm. rewrite Hm. apply IH.
    intros i Hi. apply Hrun. lia.
Qed.

Lemma last_non_tryfirst_stop methods k m :
  methods !! k = Some m → is_tryfirst m = false →
  last_non_tryfirst methods (S k) = S k.
Proof. intros Hk Hm. simpl. rewrite Hk. unfold is_tryfirst in Hm. by rewrite Hm. Qed.

(** The scan stops right after [a] when [a] does not end in a tryfirst
    entry and everything behind it is tryfirst. *)
Lemma last_non_tryfirst_app a b :
  (∀ m, last a = Some m → is_tryfirst m = false) →
  Forall (λ m, is_tryfirst m = true) b →
  last_non_tryfirst (a ++ b) (length (a ++ b)) = length a.
Proof.
  intros Ha Hb. rewrite length_app, last_non_tryfirst_skip.
  - destruct a as [|z a _] using rev_ind; [done|].
    rewrite length_app. simpl. rewrite Nat.add_1_r.
    apply last_non_tryfirst_stop with z.
    + rewrite <- (assoc_L (++)). simpl. by apply list_lookup_middle.
    + apply Ha. by rewrite last_snoc.
  - intros i Hi. rewrite lookup_app_r by lia.
    destruct (lookup_lt_is_Some_2 b (i - length a)) as [m Hm]; [lia|].
    exists m. split; [done|].
    rewrite Forall_forall in Hb. apply Hb. by eapply list_elem_of_lookup_2.
Qed.

Lemma add_to_trylast methods h :
  is_trylast h = true → add_to methods h = h :: methods.
Proof. unfold add_to, is_trylast. intros ->. unfold list_insert_at. by rewrite take_0, drop_0. Qed.

Lemma add_to_tryfirst methods h :
  is_trylast h = false → is_tryfirst h = true → add_to methods h = methods ++ [h].
Proof. unfold add_to, is_trylast, is_tryfirst. by intros -> ->. Qed.

Lemma add_to_normal a b h :
  is_trylast h = false → is_tryfirst h = false →
  (∀ m, last a = Some m → is_tryfirst m = false) →
  Forall (λ m, is_tryfirst m = true) b →
  add_to (a ++ b) h = a ++ h :: b.
Proof.
  intros Hl Hf Ha Hb. unfold add_to. unfold is_trylast, is_tryfirst in Hl, Hf.
  rewrite Hl, Hf. rewrite last_non_tryfirst_app by done.
  unfold list_insert_at. by rewrite take_app_length, drop_app_length.
Qed.

Lemma chain_order_snoc regs h :
  Forall (λ h, contradictory h = false) regs → contradictory h = false →
  add_to (chain_order regs) h = chain_order (regs ++ [h]).
Proof.
  intros Hregs Hh. unfold chain_order. rewrite !filter_app, reverse_app.
  rewrite !filter_cons, !filter_nil.
  unfold contradictory in Hh.
  destruct (is_trylast h) eqn:Hl; [|destruct (is_tryfirst h) eqn:Hf].
  - rewrite add_to_trylast by done.
    unfold is_normal, only_tryfirst, is_trylast in *. rewrite Hl. simpl.
    by rewrite !app_nil_r.
  - rewrite add_to_tryfirst by done.
    unfold is_normal, only_tryfirst, is_trylast, is_tryfirst in *.
    rewrite Hl, Hf. simpl. by rewrite app_nil_r, !(assoc_L (++)).
  - rewrite (assoc_L (++)), add_to_normal; try done.
    + unfold is_normal, only_tryfirst, is_trylast, is_tryfirst in *.
      rewrite Hl, Hf. simpl. by rewrite app_nil_r, <- !(assoc_L (++)).
    + intros m Hm. apply last_Some_elem_of in Hm.
      apply elem_of_app in Hm as [Hm|Hm].
      * apply elem_of_reverse, list_elem_of_filter in Hm as [Hm Hin].
        rewrite Forall_forall in Hregs. specialize (Hregs _ Hin).
        unfold contradictory, is_trylast, is_tryfirst in *. rewrite Hm in Hregs.
        by destruct (tryfirst (opts m)).
      * apply list_elem_of_filter in Hm as [Hm _].
        unfold is_normal, is_tryfirst in *.
        by destruct (trylast (opts m)), (tryfirst (opts m)).
    + apply Forall_forall. intros m Hm. apply list_elem_of_filter in Hm as [Hm _].
      unfold only_tryfirst, is_tryfirst in *.
      by destruct (trylast (opts m)), (tryfirst (opts m)).
Qed.

Lemma fold_add_to_chain_order regs :
  Forall (λ h, contradictory h = false) regs →
  foldl add_to [] regs = chain_order regs.
Proof.
  induction regs as [|h regs IH] using rev_ind; intros Hregs; [reflexivity|].
  rewrite Forall_app, Forall_singleton in Hregs. destruct Hregs as [Hregs Hh].
  rewrite foldl_app. simpl. rewrite IH by done. by apply chain_order_snoc.
Qed.
(** What the backward scan returns: everything from the returned index up
    to the start of the scan is tryfirst, and the entry just before the
    returned index, if there is one, is not. *)
Lemma last_non_tryfirst_spec l k :
  (k ≤ length l)%nat →
  (last_non_tryfirst l k ≤ k)%nat ∧
  (∀ i m, (last_non_tryfirst l k ≤ i < k)%nat → l !! i = Some m → is_tryfirst m = true) ∧
  (∀ j m, last_non_tryfirst l k = S j → l !! j = Some m → is_tryfirst m = false).
Proof.
  induction k as [|k IH]; intros Hk.
  - simpl. repeat split; [lia|intros; lia|done].
  - simpl. destruct (lookup_lt_is_Some_2 l k) as [z Hz]; [lia|]. rewrite Hz.
    destruct (tryfirst (opts z)) eqn:Hf.
    + destruct IH as (Hle & Hrun & Hstop); [lia|].
      repeat split; [lia| |done].
      intros i m Hi Hm. destruct (decide (i = k)) as [->|Hne].
      * unfold is_tryfirst. congruence.
      * apply (Hrun i); [lia|done].
    + repeat split; [lia|intros; lia|].
      intros j m [= <-] Hm. unfold is_tryfirst. congruence.
Qed.

Lemma last_non_tryfirst_split l :
  let k := last_non_tryfirst l (length l) in
  (∀ m, last (take k l) = Some m → is_tryfirst m = false) ∧
  Forall (λ m, is_tryfirst m = true) (drop k l).
Proof.
  intros k. destruct (last_non_tryfirst_spec l (length l)) as (Hle & Hrun & Hstop); [done|].
  fold k in Hle, Hrun, Hstop. split.
  - intros m Hm. rewrite last_lookup in Hm.
    rewrite length_take, Nat.min_l in Hm by done.
    destruct k as [|j]; [done|]. simpl in Hm.
    rewrite lookup_take_lt in Hm by lia. by apply (Hstop j).
  - apply Forall_lookup. intros i m Hm. rewrite lookup_drop in Hm.
    apply (Hrun (k + i)%nat); [|done]. apply lookup_lt_Some in Hm. lia.
Qed.

Lemma foldl_add_to_normal_app a b temps :
  (∀ m, last a = Some m → is_tryfirst m = false) →
  Forall (λ m, is_tryfirst m = true) b →
  Forall (λ t, is_trylast t = false ∧ is_tryfirst t = false) temps →
  foldl add_to (a ++ b) temps = a ++ temps ++ b.
Proof.
  intros Ha Hb Htemps. revert a Ha.
  induction Htemps as [|t temps [Hl Hf] _ IH]; intros a Ha; [done|].
  simpl. rewrite add_to_normal by done.
  replace (a ++ t :: b) with ((a ++ [t]) ++ b) by by rewrite <- (assoc_L (++)).
  rewrite IH; [by rewrite <- (assoc_L (++))|].
  intros m. rewrite last_snoc. by intros [= <-].
Qed.

(** Adding normal implementations one after the other puts them, in the
    order given, right before the trailing run of tryfirst entries. *)
Lemma foldl_add_to_normal l temps :
  Forall (λ t, is_trylast t = false ∧ is_tryfirst t = false) temps →
  foldl add_to l temps =
  take (last_non_tryfirst l (length l)) l ++ temps
  ++ drop (last_non_tryfirst l (length l)) l.
Proof.
  intros Htemps. destruct (last_non_tryfirst_split l) as [Ha Hb].
  rewrite <- (take_drop (last_non_tryfirst l (length l)) l) at 1.
  by apply foldl_add_to_normal_app.
Qed.

End ChainOrderFacts.

Lemma Forall_filter_keep {A} (P Q : A → Prop) `{!∀ x, Decision (Q x)} (l : list A) :
  Forall P l → Forall P (filter Q l).
Proof.
  rewrite !Forall_forall. intros Hl x Hx.
  apply list_elem_of_filter in Hx as [_ Hx]. by apply Hl.
Qed.

Lemma filter_none {A} (P : A → Prop) `{!∀ x, Decision (P x)} (l : list A) :
  Forall (λ x, ¬ P x) l → filter P l = [].
Proof.
  induction 1 as [|x l Hx _ IH]; [done|].
  by rewrite filter_cons, decide_False.
Qed.

Lemma filter_all {A} (P : A → Prop) `{!∀ x, Decision (P x)} (l : list A) :
  Forall P l → filter P l = l.
Proof.
  induction 1 as [|x l Hx _ IH]; [done|].
  by rewrite filter_cons, decide_True, IH.
Qed.

(** ** HookspecMarker *)

(** C6: marking a specification with both [historic] and [firstresult] true
    raises [ValueError], whether the marker is applied to the function at
    once or through the decorator it returns; every other combination of
    the two flags succeeds and stores the three options on the function. *)
Theorem hookspec_historic_firstresult {X} project_name func (firstresult historic : bool) warn :
  let r := @setattr_hookspec_opts X project_name
             (PyBool firstresult) (PyBool historic) warn func in
  HookspecMarker_call project_name (Some func)
    (PyBool firstresult) (PyBool historic) warn = inl r ∧
  (∃ decorator,
     HookspecMarker_call project_name None
       (PyBool firstresult) (PyBool historic) warn = inr decorator
     ∧ decorator func = r) ∧
  (historic = true ∧ firstresult = true →
     r = Raise (ValueError "cannot have a historic firstresult hook")) ∧
  (¬ (historic = true ∧ firstresult = true) →
     ∃ opts, r = Ok (setattr func (String.append project_name "_spec") opts)
       ∧ opts !! "firstresult" = Some (PyBool firstresult)
       ∧ opts !! "historic" = Some (PyBool historic)
       ∧ opts !! "warn_on_impl" = Some warn).
Proof.
  intros r. subst r. unfold HookspecMarker_call, setattr_hookspec_opts. simpl.
  split; [done|]. split; [by eexists|]. split.
  - by intros [-> ->].
  - intros Hnot. destruct historic, firstresult; simpl; try (by destruct Hnot);
      eexists; (split; [reflexivity|]); by simplify_map_eq.
Qed.

(** ** The caller's operations *)

Section CallerFacts.
Context {Value Plugin Proc UserExn World : Type} `{EqDecision Plugin}.
Variable _hookexec :
  World → @HookCaller Value Plugin Proc → list (@HookImpl Plugin) →
  option (gmap string Value) → World * result (exn UserExn) (list Value).
Variable apply_proc : World → Proc → Value → World * result (exn UserExn) unit.

Local Abbreviation St := (@State Value Plugin Proc UserExn World).
Implicit Types (s : St) (h : @HookImpl Plugin) (regs : list (@HookImpl Plugin)).
Implicit Types (hc : @HookCaller Value Plugin Proc).

(** Unfolding of the monad's plumbing. *)
Ltac run :=
  unfold mbind, M_bind, mret, M_ret, bind, ret, raise, get_self, update_self,
    emit, warn, assert_, lift, hookexec, call_proc, restore in *; simpl in *.

Lemma for_each_cons {A} (x : A) xs (body : A → M ()) s :
  for_each (x :: xs) body s =
  match body x s with
  | (Ok _, s') => for_each xs body s'
  | (Raise e, s') => (Raise e, s')
  end.
Proof. reflexivity. Qed.

Lemma add_hookimpl_run h s :
  (_add_hookimpl h s).1 = Ok () ∧
  world (_add_hookimpl h s).2 = world s ∧
  _nonwrappers (self (_add_hookimpl h s).2) =
    (if is_wrapper h then _nonwrappers (self s) else add_to (_nonwrappers (self s)) h) ∧
  _wrappers (self (_add_hookimpl h s).2) =
    (if is_wrapper h then add_to (_wrappers (self s)) h else _wrappers (self s)) ∧
  _call_history (self (_add_hookimpl h s).2) = _call_history (self s) ∧
  hc_argnames (self (_add_hookimpl h s).2) = hc_argnames (self s) ∧
  multicall (self (_add_hookimpl h s).2) =
    (if str_in "__multicall__" (argnames h) then _legacymulticall else multicall (self s)) ∧
  ∃ evs, log (_add_hookimpl h s).2 = log s ++ evs ∧ Forall (λ ev, is_warning ev = true) evs.
Proof.
  unfold _add_hookimpl, is_wrapper.
  destruct (hookwrapper (opts h)), (str_in "__multicall__" (argnames h)); run;
    repeat split; try done.
  all: try (eexists; split; [reflexivity|]; by repeat constructor).
  all: by (exists []; rewrite app_nil_r).
Qed.

Lemma register_all_run regs s :
  (for_each regs _add_hookimpl s).1 = Ok () ∧
  world (for_each regs _add_hookimpl s).2 = world s ∧
  _nonwrappers (self (for_each regs _add_hookimpl s).2) =
    foldl add_to (_nonwrappers (self s)) (filter (λ h, is_wrapper h = false) regs) ∧
  _wrappers (self (for_each regs _add_hookimpl s).2) =
    foldl add_to (_wrappers (self s)) (filter (λ h, is_wrapper h = true) regs) ∧
  _call_history (self (for_each regs _add_hookimpl s).2) = _call_history (self s) ∧
  hc_argnames (self (for_each regs _add_hookimpl s).2) = hc_argnames (self s) ∧
  ∃ evs, log (for_each regs _add_hookimpl s).2 = log s ++ evs
         ∧ Forall (λ ev, is_warning ev = true) evs.
Proof.
  revert s. induction regs as [|h regs IH]; intros s.
  - simpl. repeat split; try done. exists []. by rewrite app_nil_r.
  - rewrite for_each_cons.
    destruct (add_hookimpl_run h s) as (Hr & Hw & Hnw & Hws & Hh & Ha & _ & evs & Hlog & Hevs).
    destruct (_add_hookimpl h s) as [r1 s1]. simpl in *. subst r1.
    destruct (IH s1) as (Hr' & Hw' & Hnw' & Hws' & Hh' & Ha' & evs' & Hlog' & Hevs').
    rewrite !filter_cons.
    repeat split; try congruence.
    + rewrite Hnw', Hnw. by destruct (is_wrapper h).
    + rewrite Hws', Hws. by destruct (is_wrapper h).
    + exists (evs ++ evs'). rewrite Hlog', Hlog, (assoc_L (++)). split; [done|].
      by apply Forall_app.
Qed.

(** [__call__] without positional arguments on a caller that is not
    historic: at most one warning, then exactly one dispatch over
    [_nonwrappers + _wrappers]. *)
Lemma call_run kwargs s :
  is_historic (self s) = false →
  ∃ evs, Forall (λ ev, is_warning ev = true) evs ∧
    __call__ _hookexec [] kwargs s =
    ((_hookexec (world s) (self s)
        (_nonwrappers (self s) ++ _wrappers (self s)) (Some kwargs)).2,
     {| self := self s;
        world := (_hookexec (world s) (self s)
                    (_nonwrappers (self s) ++ _wrappers (self s)) (Some kwargs)).1;
        log := (log s ++ evs) ++
               [Executed (self s) (_nonwrappers (self s) ++ _wrappers (self s))
                  (Some kwargs)
                  (_hookexec (world s) (self s)
                     (_nonwrappers (self s) ++ _wrappers (self s)) (Some kwargs)).2] |}).
Proof.
  intros Hh. unfold __call__. run. rewrite Hh. simpl.
  destruct (hc_argnames (self s)) as [[|n names]|]; simpl.
  1,3: exists []; split; [done|]; rewrite app_nil_r;
       by destruct (_hookexec _ _ _ _).
  case_bool_decide; simpl.
  - exists []. split; [done|]. rewrite app_nil_r. by destruct (_hookexec _ _ _ _).
  - eexists [_]. split; [|by destruct (_hookexec _ _ _ _)]. by repeat constructor.
Qed.

(** C1 (as amended): provided no registered implementation is marked both
    tryfirst and trylast, registering [regs] on a caller with empty chains
    leaves in [_nonwrappers] the non-wrapper registrations ordered as: the
    trylast ones most recently registered first, then the normal ones in
    registration order, then the tryfirst ones in registration order,
    whatever wrapper registrations are interleaved (and likewise for
    [_wrappers]); and a call dispatches over [_nonwrappers + _wrappers]. *)
Theorem chain_order_of_registrations regs kwargs s :
  _nonwrappers (self s) = [] → _wrappers (self s) = [] →
  is_historic (self s) = false →
  Forall (λ h, contradictory h = false) regs →
  let s1 := (for_each regs _add_hookimpl s).2 in
  let chain := _nonwrappers (self s1) ++ _wrappers (self s1) in
  (for_each regs _add_hookimpl s).1 = Ok () ∧
  _nonwrappers (self s1) = chain_order (filter (λ h, is_wrapper h = false) regs) ∧
  _wrappers (self s1) = chain_order (filter (λ h, is_wrapper h = true) regs) ∧
  (__call__ _hookexec [] kwargs s1).1 = (_hookexec (world s1) (self s1) chain (Some kwargs)).2 ∧
  last (log (__call__ _hookexec [] kwargs s1).2) =
    Some (Executed (self s1) chain (Some kwargs) (__call__ _hookexec [] kwargs s1).1).
Proof.
  intros Hnw Hws Hh Hregs s1 chain.
  destruct (register_all_run regs s) as (Hr & _ & Hnw' & Hws' & Hh' & _).
  fold s1 in Hnw', Hws', Hh'.
  rewrite Hnw in Hnw'. rewrite Hws in Hws'.
  rewrite fold_add_to_chain_order in Hnw', Hws'
    by (by apply Forall_filter_keep).
  destruct (call_run kwargs s1) as (evs & _ & Hcall).
  { unfold is_historic in *. by rewrite Hh'. }
  fold chain in Hcall. rewrite Hcall. simpl.
  repeat split; try done. by rewrite last_snoc.
Qed.
Implicit Types (pl : option Plugin) (l ws nws : list (@HookImpl Plugin)).

(** C5 (as amended): an implementation marked both tryfirst and trylast is
    not rejected; [_add_hookimpl] succeeds and puts it at the front of its
    list, as it does for any trylast implementation, and leaves the other
    list alone. *)
Theorem contradictory_flags_accepted h s :
  contradictory h = true →
  (_add_hookimpl h s).1 = Ok () ∧
  _nonwrappers (self (_add_hookimpl h s).2) =
    (if is_wrapper h then _nonwrappers (self s) else h :: _nonwrappers (self s)) ∧
  _wrappers (self (_add_hookimpl h s).2) =
    (if is_wrapper h then h :: _wrappers (self s) else _wrappers (self s)).
Proof.
  intros Hh.
  destruct (add_hookimpl_run h s) as (Hr & _ & Hnw & Hws & _).
  assert (Hl : is_trylast h = true).
  { unfold contradictory, is_trylast in *. by destruct (tryfirst (opts h)), (trylast (opts h)). }
  rewrite Hnw, Hws, !add_to_trylast by done. done.
Qed.

Lemma first_owned_spec pl i l :
  match first_owned pl i l with
  | Some j => ∃ l1 x l2, l = l1 ++ x :: l2 ∧ plugin x = pl
                         ∧ Forall (λ m, plugin m ≠ pl) l1 ∧ j = i + length l1
  | None => Forall (λ m, plugin m ≠ pl) l
  end.
Proof.
  revert i. induction l as [|m l IH]; intros i; simpl; [done|].
  case_bool_decide as Hm.
  - exists [], m, l. simpl. repeat split; try done; lia.
  - specialize (IH (S i)). destruct (first_owned pl (S i) l) as [j|].
    + destruct IH as (l1 & x & l2 & -> & Hx & Hl1 & ->).
      exists (m :: l1), x, l2. simpl. repeat split; try done; try lia. by constructor.
    + by constructor.
Qed.

(** [remove] deletes the first entry owned by the plugin and nothing else. *)
Lemma remove_spec pl l :
  (∃ l1 x l2, l = l1 ++ x :: l2 ∧ plugin x = pl ∧ Forall (λ m, plugin m ≠ pl) l1
              ∧ remove pl l = (l1 ++ l2, Some true))
  ∨ (Forall (λ m, plugin m ≠ pl) l ∧ remove pl l = (l, None)).
Proof.
  unfold remove. pose proof (first_owned_spec pl 0 l) as Hf.
  destruct (first_owned pl 0 l) as [j|]; [left|right; done].
  destruct Hf as (l1 & x & l2 & -> & Hx & Hl1 & ->).
  exists l1, x, l2. repeat split; try done. simpl.
  by rewrite delete_middle.
Qed.

(** C2 (as amended): [_remove_plugin] searches [_wrappers] before
    [_nonwrappers]; it deletes the first entry owned by the plugin in the
    first of the two lists that has one, keeping every other entry of both
    lists in its place, and raises [ValueError], changing neither list, when
    no entry of either list is owned by the plugin. *)
Theorem remove_plugin_first_match pl s :
  let r := _remove_plugin pl s in
  let ws := _wrappers (self s) in
  let nws := _nonwrappers (self s) in
  (∃ l1 x l2, ws = l1 ++ x :: l2 ∧ plugin x = pl ∧ Forall (λ m, plugin m ≠ pl) l1
     ∧ r.1 = Ok () ∧ _wrappers (self r.2) = l1 ++ l2 ∧ _nonwrappers (self r.2) = nws)
  ∨ (Forall (λ m, plugin m ≠ pl) ws
     ∧ ∃ l1 x l2, nws = l1 ++ x :: l2 ∧ plugin x = pl ∧ Forall (λ m, plugin m ≠ pl) l1
       ∧ r.1 = Ok () ∧ _nonwrappers (self r.2) = l1 ++ l2 ∧ _wrappers (self r.2) = ws)
  ∨ (Forall (λ m, plugin m ≠ pl) ws ∧ Forall (λ m, plugin m ≠ pl) nws
     ∧ r.1 = Raise (ValueError "plugin not found")
     ∧ _wrappers (self r.2) = ws ∧ _nonwrappers (self r.2) = nws).
Proof.
  intros r ws nws. subst r. unfold _remove_plugin. run. fold ws nws.
  destruct (remove_spec pl ws) as [(l1 & x & l2 & Hws & Hx & Hl1 & ->)|[Hnone ->]].
  { left. exists l1, x, l2. by repeat split. }
  right. simpl.
  destruct (remove_spec pl nws) as [(l1 & x & l2 & Hnws & Hx & Hl1 & ->)|[Hnone' ->]].
  - left. split; [done|]. exists l1, x, l2. by repeat split.
  - right. by repeat split.
Qed.

(** C10: when the plugin owns at least one entry, one call of
    [_remove_plugin] succeeds and deletes exactly one entry, the first one
    owned by the plugin in [_wrappers + _nonwrappers]; every other entry,
    the plugin's other implementations included, stays in place and at most
    one of the two lists changes. *)
Theorem remove_plugin_at_most_one pl s :
  (∃ m, m ∈ _wrappers (self s) ++ _nonwrappers (self s) ∧ plugin m = pl) →
  let r := _remove_plugin pl s in
  let before := _wrappers (self s) ++ _nonwrappers (self s) in
  let after := _wrappers (self r.2) ++ _nonwrappers (self r.2) in
  r.1 = Ok () ∧
  (_wrappers (self r.2) = _wrappers (self s)
   ∨ _nonwrappers (self r.2) = _nonwrappers (self s)) ∧
  length after + 1 = length before ∧
  ∃ l1 x l2, before = l1 ++ x :: l2 ∧ plugin x = pl
    ∧ Forall (λ m, plugin m ≠ pl) l1 ∧ after = l1 ++ l2
    ∧ filter (λ m, plugin m = pl) before = x :: filter (λ m, plugin m = pl) after.
Proof.
  intros (m & Hin & Hm) r before after.
  assert (Hfilter : ∀ l1 x l2, plugin x = pl → Forall (λ m, plugin m ≠ pl) l1 →
    filter (λ m, plugin m = pl) (l1 ++ x :: l2)
    = x :: filter (λ m, plugin m = pl) (l1 ++ l2)).
  { intros l1 x l2 Hx Hl1. rewrite !filter_app, filter_cons, decide_True by done.
    by rewrite (filter_none _ l1). }
  subst r before after. unfold _remove_plugin. run.
  destruct (remove_spec pl (_wrappers (self s)))
    as [(l1 & x & l2 & Hws & Hx & Hl1 & ->)|[Hnone ->]]; simpl.
  - split; [done|]. split; [by right|]. rewrite Hws. split.
    { rewrite !length_app. simpl. lia. }
    exists l1, x, (l2 ++ _nonwrappers (self s)).
    rewrite <- !(assoc_L (++)). simpl. repeat split; try done.
    rewrite <- (Hfilter l1 x) by done. done.
  - destruct (remove_spec pl (_nonwrappers (self s)))
      as [(l1 & x & l2 & Hnws & Hx & Hl1 & ->)|[Hnone' ->]]; simpl.
    + split; [done|]. split; [by left|]. rewrite Hnws. split.
      { rewrite !length_app. simpl. lia. }
      exists (_wrappers (self s) ++ l1), x, l2.
      rewrite <- !(assoc_L (++)). simpl. repeat split; try done.
      * by apply Forall_app.
      * rewrite !(assoc_L (++)). apply Hfilter; [done|]. by apply Forall_app.
    + exfalso. apply elem_of_app in Hin as [Hin|Hin].
      * rewrite Forall_forall in Hnone. by apply (Hnone m).
      * rewrite Forall_forall in Hnone'. by apply (Hnone' m).
Qed.

Implicit Types (proc : option Proc) (history : list (gmap string Value * option Proc)).

Lemma call_proc_run p x s :
  call_proc apply_proc p x s =
  ((apply_proc (world s) p x).2,
   {| self := self s; world := (apply_proc (world s) p x).1;
      log := log s ++ [Called p x (apply_proc (world s) p x).2] |}).
Proof. unfold call_proc. by destruct (apply_proc (world s) p x). Qed.

Lemma hookexec_run methods kw s :
  hookexec _hookexec methods kw s =
  ((_hookexec (world s) (self s) methods kw).2,
   {| self := self s; world := (_hookexec (world s) (self s) methods kw).1;
      log := log s ++ [Executed (self s) methods kw
                         (_hookexec (world s) (self s) methods kw).2] |}).
Proof. unfold hookexec. by destruct (_hookexec (world s) (self s) methods kw). Qed.

Lemma for_each_call_proc p (xs : list Value) s :
  self (for_each xs (call_proc apply_proc p) s).2 = self s ∧
  ∃ evs, log (for_each xs (call_proc apply_proc p) s).2 = log s ++ evs.
Proof.
  revert s. induction xs as [|x xs IH]; intros s.
  - simpl. split; [done|]. exists []. by rewrite app_nil_r.
  - rewrite for_each_cons, call_proc_run.
    destruct (apply_proc (world s) p x).2 as [[]|e]; simpl.
    + match goal with |- context [for_each xs _ ?s0] =>
        destruct (IH s0) as [Hs [evs Hl]] end.
      split; [done|]. eexists. rewrite Hl. simpl. by rewrite <- (assoc_L (++)).
    + split; [done|]. by eexists.
Qed.

(** C8: on a historic caller, [call_historic] appends the pair of the
    keyword arguments and the callback to the history before it dispatches:
    the dispatcher is handed the caller with the call already recorded, and
    whatever the dispatch does, raising included, the call is still the last
    entry of the history when [call_historic] is left. *)
Theorem call_historic_records_first proc kwargs s history :
  _call_history (self s) = Some history →
  let recorded := set_call_history (history ++ [(default ∅ kwargs, proc)]) (self s) in
  let chain := _nonwrappers (self s) ++ _wrappers (self s) in
  let out := _hookexec (world s) recorded chain kwargs in
  let r := call_historic _hookexec apply_proc proc kwargs s in
  self r.2 = recorded ∧
  _call_history (self r.2) = Some (history ++ [(default ∅ kwargs, proc)]) ∧
  (∃ evs, log r.2 = log s ++ Executed recorded chain kwargs out.2 :: evs) ∧
  (∀ e, out.2 = Raise e →
        r.1 = Raise e ∧ log r.2 = log s ++ [Executed recorded chain kwargs out.2]).
Proof.
  intros Hh recorded chain out r.
  assert (Hself : self r.2 = recorded
          ∧ (∃ evs, log r.2 = log s ++ Executed recorded chain kwargs out.2 :: evs)
          ∧ (∀ e, out.2 = Raise e →
               r.1 = Raise e ∧ log r.2 = log s ++ [Executed recorded chain kwargs out.2])).
  { subst r. unfold call_historic.
    unfold mbind, M_bind, bind, get_self, update_self. simpl. rewrite Hh. simpl.
    rewrite hookexec_run. simpl. fold recorded chain. fold out.
    destruct out.2 as [res|e]; simpl.
    - destruct proc as [p|]; simpl.
      + match goal with |- context [for_each res _ ?s0] =>
          destruct (for_each_call_proc p res s0) as [Hs [evs Hl]] end.
        simpl in *. rewrite Hs, Hl. split; [done|]. split; [|done].
        exists evs. by rewrite <- (assoc_L (++)).
      + split; [done|]. split; [|done]. by exists [].
    - split; [done|]. split; [by exists []|]. by intros e' [= <-]. }
  destruct Hself as (Hs & Hl & He).
  split; [done|]. split; [by rewrite Hs|]. by split.
Qed.

Lemma replay_call_self method call s :
  self (replay_call _hookexec apply_proc method call s).2 = self s.
Proof.
  destruct call as [kw proc]. unfold replay_call.
  unfold mbind, M_bind, bind. rewrite hookexec_run. simpl.
  destruct (_hookexec _ _ _ _).2 as [[|x res]|e]; simpl; try done.
  destruct proc as [p|]; [|done]. by rewrite call_proc_run.
Qed.

Lemma for_each_self {A} (body : A → M ()) (xs : list A) s :
  (∀ x s', self (body x s').2 = self s') →
  self (for_each xs body s).2 = self s.
Proof.
  intros Hbody. revert s. induction xs as [|x xs IH]; intros s; [done|].
  rewrite for_each_cons. specialize (Hbody x s).
  destruct (body x s) as [[[]|e] s1]; simpl in *; [|done]. by rewrite IH.
Qed.




Implicit Types (methods : list Callable) (temps : list (@HookImpl Plugin)).

Lemma HookImpl_init_temp method :
  is_ok (@varnames UserExn method) = true →
  ∃ t, @HookImpl_init Plugin UserExn None "<temp>" method temp_opts = Ok t.
Proof.
  unfold HookImpl_init.
  destruct (varnames method) as [[args kwargs]|e] eqn:Hv; [|done]. by eexists.
Qed.

Lemma HookImpl_init_attrs pl nm method o t :
  @HookImpl_init Plugin UserExn pl nm method o = Ok t →
  function t = method ∧ plugin t = pl ∧ plugin_name t = nm ∧ opts t = o ∧
  @varnames UserExn method = Ok (argnames t, kwargnames t).
Proof.
  unfold HookImpl_init.
  destruct (varnames method) as [[args kwargs]|e] eqn:Hv; [|done].
  by intros [= <-].
Qed.

Lemma add_extra_run method t s :
  @HookImpl_init Plugin UserExn None "<temp>" method temp_opts = Ok t →
  add_extra method s = _add_hookimpl t s.
Proof. intros Ht. unfold add_extra. unfold mbind, M_bind, bind, lift. by rewrite Ht. Qed.

Lemma for_each_add_extra methods temps s :
  Forall2 (λ method t,
    @HookImpl_init Plugin UserExn None "<temp>" method temp_opts = Ok t) methods temps →
  for_each methods add_extra s = for_each temps _add_hookimpl s.
Proof.
  intros Hall. revert s.
  induction Hall as [|method t methods temps Ht _ IH]; intros s; [done|].
  rewrite !for_each_cons, (add_extra_run method t) by done.
  by destruct (_add_hookimpl t s) as [[[]|e] s1].
Qed.

Lemma try_finally_restore {A} (body : M A) nws ws s :
  try_finally body (restore (nws, ws)) s =
  ((body s).1,
   {| self := set_wrappers ws (set_nonwrappers nws (self (body s).2));
      world := world (body s).2; log := log (body s).2 |}).
Proof. unfold try_finally, restore, update_self. by destruct (body s). Qed.

(** X21: when the parameter names of every extra callable can be
    extracted, so that the temporary implementations are built and the hook
    is invoked, [call_extra] leaves [_wrappers] and [_nonwrappers] exactly
    as they were, whether the invocation returns or raises; each extra
    callable takes part in that invocation as an implementation that is
    neither wrapper, tryfirst nor trylast and has no owning plugin, placed
    in the order given right before the trailing tryfirst entries of
    [_nonwrappers]; a historic caller refuses the invocation. *)
Theorem call_extra_restores methods kwargs s :
  Forall (λ method, is_ok (@varnames UserExn method) = true) methods →
  let r := call_extra _hookexec methods kwargs s in
  let ws := _wrappers (self s) in
  let nws := _nonwrappers (self s) in
  let k := last_non_tryfirst nws (length nws) in
  _wrappers (self r.2) = ws ∧ _nonwrappers (self r.2) = nws ∧
  ∃ temps,
    Forall2 (λ method t,
      @HookImpl_init Plugin UserExn None "<temp>" method temp_opts = Ok t)
      methods temps ∧
    Forall (λ t, plugin t = None ∧ is_wrapper t = false
                 ∧ is_trylast t = false ∧ is_tryfirst t = false) temps ∧
    if is_historic (self s) then r.1 = Raise AssertionError
    else ∃ hc evs,
      _nonwrappers hc = take k nws ++ temps ++ drop k nws ∧ _wrappers hc = ws ∧
      Forall (λ ev, is_warning ev = true) evs ∧
      r.1 = (_hookexec (world s) hc (_nonwrappers hc ++ ws) (Some kwargs)).2 ∧
      log r.2 = log s ++ evs ++ [Executed hc (_nonwrappers hc ++ ws) (Some kwargs) r.1].
Proof.
  intros Hok r ws nws k.
  assert (∃ temps, Forall2 (λ method t,
    @HookImpl_init Plugin UserExn None "<temp>" method temp_opts = Ok t) methods temps)
    as [temps Htemps].
  { induction Hok as [|method methods Hm _ [temps IH]]; [by exists []|].
    destruct (HookImpl_init_temp method Hm) as [t Ht].
    exists (t :: temps). by constructor. }
  assert (Hflags : Forall (λ t, plugin t = None ∧ is_wrapper t = false
                     ∧ is_trylast t = false ∧ is_tryfirst t = false) temps).
  { clear -Htemps. induction Htemps as [|method t methods temps Ht _ IH]; [done|].
    constructor; [|done].
    apply HookImpl_init_attrs in Ht as (_ & Hp & _ & Ho & _).
    unfold is_wrapper, is_trylast, is_tryfirst. by rewrite Hp, Ho. }
  assert (Hr : r = try_finally (__call__ _hookexec [] kwargs) (restore (nws, ws))
                     (for_each temps _add_hookimpl s).2).
  { subst r. unfold call_extra. unfold mbind, M_bind, bind, get_self. simpl.
    rewrite (for_each_add_extra methods temps) by done.
    destruct (register_all_run temps s) as (Hr1 & _).
    destruct (for_each temps _add_hookimpl s) as [r1 s1]. simpl in *. by subst r1. }
  destruct (register_all_run temps s) as (_ & Hw & Hnw & Hws & Hh & _ & evs1 & Hlog1 & Hevs1).
  set (s1 := (for_each temps _add_hookimpl s).2) in *.
  rewrite filter_all in Hnw by (eapply Forall_impl; [exact Hflags|]; by intros t (_ & ? & _)).
  rewrite filter_none in Hws
    by (eapply Forall_impl; [exact Hflags|]; intros t (_ & -> & _); done).
  rewrite foldl_add_to_normal in Hnw
    by (eapply Forall_impl; [exact Hflags|]; by intros t (_ & _ & ? & ?)).
  simpl in Hws. fold nws k in Hnw. fold ws in Hws.
  rewrite try_finally_restore in Hr.
  split; [by rewrite Hr|]. split; [by rewrite Hr|].
  exists temps. split; [done|]. split; [done|].
  destruct (is_historic (self s)) eqn:Hhist.
  - rewrite Hr. simpl. unfold __call__.
    unfold mbind, M_bind, bind, get_self, assert_. simpl.
    unfold is_historic in *. rewrite Hh. by destruct (_call_history (self s)).
  - destruct (call_run kwargs s1) as (evs & Hevs & Hcall).
    { unfold is_historic in *. by rewrite Hh. }
    rewrite Hws in Hcall.
    exists (self s1), (evs1 ++ evs). rewrite Hws.
    split; [done|]. split; [done|]. split; [by apply Forall_app|].
    rewrite Hr, Hcall. simpl. rewrite Hw, Hlog1. split; [done|].
    by rewrite !(assoc_L (++)).
Qed.

(** C7: [set_specification] fails, changing nothing, on a caller that is
    already bound; on a caller that has no specification, given a
    specification object that defines the hook, whose parameter names can
    be extracted, and an option dictionary, it succeeds and binds the
    caller; the binding creates an empty call history when the options mark
    the hook historic, and leaves the history absent otherwise. *)
Theorem set_specification_one_shot sm (o : option (gmap string PyVal)) s :
  let r := set_specification sm o s in
  (has_spec (self s) = true → r.1 = Raise AssertionError ∧ r.2 = s) ∧
  (has_spec (self s) = false →
   ∀ specfunc args kwargs d,
     sm !! name (self s) = Some specfunc →
     @varnames UserExn specfunc = Ok (args, kwargs) →
     o = Some d →
     r.1 = Ok () ∧
     has_spec (self r.2) = true ∧
     _specmodule_or_class (self r.2) = Some sm ∧
     hc_argnames (self r.2) = Some ("__multicall__" :: args) ∧
     hc_kwargnames (self r.2) = Some kwargs ∧
     _call_history (self r.2) =
       (if truthy (default PyNone (d !! "historic")) then Some []
        else _call_history (self s)) ∧
     (set_specification sm o r.2).1 = Raise AssertionError).
Proof.
  intros r. subst r. unfold set_specification.
  unfold mbind, M_bind, bind, get_self, assert_, update_self, lift, ret, raise.
  simpl. split.
  - intros ->. simpl. by destruct s.
  - intros -> specfunc args kwargs d -> -> ->. simpl.
    destruct (truthy (default PyNone (d !! "historic"))); simpl; done.
Qed.

(** *** The legacy switch is never undone *)

Local Abbreviation keeps base m :=
  (@keeps_legacy Value Plugin Proc UserExn World _ base m).

Lemma keeps_ret {A} base (a : A) : keeps base (ret a).
Proof. by intros s Hs. Qed.

Lemma keeps_raise {A} base e : keeps base (@raise _ _ _ _ _ A e).
Proof. by intros s Hs. Qed.

Lemma keeps_get_self base : keeps base get_self.
Proof. by intros s Hs. Qed.

Lemma keeps_lift {A} base (r : result (exn UserExn) A) : keeps base (lift r).
Proof. by intros s Hs. Qed.

Lemma keeps_assert base b : keeps base (assert_ b).
Proof. by destruct b; intros s Hs. Qed.

Lemma keeps_update base (f : HookCaller → HookCaller) :
  (∀ hc, multicall hc = _legacymulticall → multicall (f hc) = _legacymulticall) →
  keeps base (update_self f).
Proof. intros Hf s [Hm Hl]. split; [by apply Hf|done]. Qed.

Lemma keeps_emit base ev : dispatches_legacy ev → keeps base (emit ev).
Proof.
  intros Hev s [Hm (evs & Hl & Hevs)]. split; [done|].
  exists (evs ++ [ev]). simpl. rewrite Hl, (assoc_L (++)). split; [done|].
  apply Forall_app. by split; [|constructor].
Qed.

Lemma keeps_hookexec base (chain : list (@HookImpl Plugin)) kw :
  keeps base (hookexec _hookexec chain kw).
Proof.
  intros s [Hm (evs & Hl & Hevs)]. rewrite hookexec_run. split; [done|].
  eexists (evs ++ [_]). simpl. rewrite Hl, (assoc_L (++)). split; [done|].
  apply Forall_app. by split; [|constructor].
Qed.

Lemma keeps_call_proc base p x : keeps base (call_proc apply_proc p x).
Proof.
  intros s [Hm (evs & Hl & Hevs)]. rewrite call_proc_run. split; [done|].
  eexists (evs ++ [_]). simpl. rewrite Hl, (assoc_L (++)). split; [done|].
  apply Forall_app. by split; [|constructor].
Qed.

Lemma keeps_bind {A B} base (m : M A) (k : A → M B) :
  keeps base m → (∀ a, keeps base (k a)) → keeps base (bind m k).
Proof.
  intros Hm Hk s Hs. unfold bind. specialize (Hm s Hs).
  destruct (m s) as [[a|e] s1]; [by apply Hk|done].
Qed.

Lemma keeps_for_each {A} base (xs : list A) (body : A → M ()) :
  (∀ x, keeps base (body x)) → keeps base (for_each xs body).
Proof.
  intros Hbody. induction xs as [|x xs IH]; [apply keeps_ret|].
  simpl. apply keeps_bind; [apply Hbody|done].
Qed.

Lemma keeps_try_finally {A} base (body : M A) (cleanup : M ()) :
  keeps base body → keeps base cleanup →
  keeps base (try_finally body cleanup).
Proof.
  intros Hb Hc s Hs. unfold try_finally. specialize (Hb s Hs).
  destruct (body s) as [r s1]. specialize (Hc s1 Hb).
  by destruct (cleanup s1) as [[[]|e] s2].
Qed.

Create HintDb legacy.

#[local] Hint Resolve keeps_ret keeps_raise keeps_get_self keeps_lift keeps_assert
  keeps_hookexec keeps_call_proc keeps_for_each keeps_try_finally : legacy.

(** Decomposition of a program of the monad into its steps. *)
Ltac keeps_step :=
  lazymatch goal with
  | |- keeps_legacy _ (mbind _ _) => unfold mbind, M_bind
  | |- keeps_legacy _ (bind _ _) => apply keeps_bind; [|intros ?]
  | |- keeps_legacy _ (update_self _) => apply keeps_update; by intros []
  | |- keeps_legacy _ (warn _ _ _) => by apply keeps_emit
  | |- keeps_legacy _ (match ?x with _ => _ end) => destruct x
  | |- keeps_legacy _ _ => by auto with legacy
  end.

Lemma keeps_add_hookimpl base h : keeps base (_add_hookimpl h).
Proof. unfold _add_hookimpl. repeat keeps_step. Qed.

Lemma keeps_set_specification base sm o : keeps base (set_specification sm o).
Proof. unfold set_specification. repeat keeps_step. Qed.

Lemma keeps_remove_plugin base pl : keeps base (_remove_plugin pl).
Proof. unfold _remove_plugin. repeat keeps_step. Qed.

Lemma keeps_call base args kwargs : keeps base (__call__ _hookexec args kwargs).
Proof. unfold __call__. repeat keeps_step. Qed.

Lemma keeps_call_historic base proc kwargs :
  keeps base (call_historic _hookexec apply_proc proc kwargs).
Proof. unfold call_historic. repeat keeps_step. Qed.

Lemma keeps_call_extra base methods kwargs :
  keeps base (call_extra _hookexec methods kwargs).
Proof.
  unfold call_extra. repeat keeps_step.
  - apply keeps_for_each. intros method. unfold add_extra. repeat keeps_step.
    apply keeps_add_hookimpl.
  - apply keeps_try_finally; [apply keeps_call|]. unfold restore. keeps_step.
Qed.

Lemma keeps_maybe_apply_history base method :
  keeps base (_maybe_apply_history _hookexec apply_proc method).
Proof.
  unfold _maybe_apply_history. repeat keeps_step.
  apply keeps_for_each. intros [kw proc]. unfold replay_call. repeat keeps_step.
Qed.

Lemma run_ops_keeps_legacy base ops s :
  legacy_since base s → legacy_since base (run_ops _hookexec apply_proc ops s).
Proof.
  revert s. induction ops as [|op ops IH]; intros s Hs; [done|].
  simpl. apply IH. destruct op; simpl.
  - by apply keeps_set_specification.
  - by apply keeps_remove_plugin.
  - by apply keeps_add_hookimpl.
  - by apply keeps_call.
  - by apply keeps_call_historic.
  - by apply keeps_call_extra.
  - by apply keeps_maybe_apply_history.
Qed.

(** C9: adding an implementation that declares a parameter named
    [__multicall__] sets the caller's [multicall] to [_legacymulticall], and
    no later sequence of operations on the caller undoes it: the attribute
    still has that value afterwards and every dispatch made in between was
    handed the caller with that value; adding an implementation that does
    not declare the name leaves [multicall] as it was. *)
Theorem multicall_switch_is_permanent h s ops :
  let s1 := (_add_hookimpl h s).2 in
  ("__multicall__" ∈ argnames h →
   multicall (self s1) = _legacymulticall ∧
   multicall (self (run_ops _hookexec apply_proc ops s1)) = _legacymulticall ∧
   ∃ evs, log (run_ops _hookexec apply_proc ops s1) = log s1 ++ evs
          ∧ Forall dispatches_legacy evs) ∧
  ("__multicall__" ∉ argnames h → multicall (self s1) = multicall (self s)).
Proof.
  intros s1. destruct (add_hookimpl_run h s) as (_ & _ & _ & _ & _ & _ & Hm & _).
  fold s1 in Hm. unfold str_in in Hm. split; intros Hin.
  - rewrite bool_decide_eq_true_2 in Hm by done. split; [done|].
    apply (run_ops_keeps_legacy (log s1) ops s1).
    split; [done|]. exists []. by rewrite app_nil_r.
  - by rewrite bool_decide_eq_false_2 in Hm.
Qed.

End CallerFacts.

(** * Further properties *)

(** ** Parameter names *)

(** X1: without a memo and with an argument specification, the names
    [varnames] returns split the specified arguments: the names with
    defaults are the last [len(defaults)] ones, the positional names are
    the ones before them, less the first one when it is the implicit
    instance argument (a bound method, or a first argument called [self] of
    a function with a dotted qualified name), and no positional name
    returned is [self]. *)
Theorem varnames_splits_arguments {X} func spec_args ndefaults args defaults :
  varnames_cache func = None →
  argspec func = Some (spec_args, ndefaults) →
  @varnames X func = Ok (args, defaults) →
  let positional := take (length spec_args - ndefaults) spec_args in
  let implicit :=
    match positional with
    | [] => false
    | a0 :: _ => ismethod func || (qualname_dotted func && bool_decide (a0 = "self"))
    end in
  positional ++ defaults = spec_args ∧
  length defaults = ndefaults `min` length spec_args ∧
  args = (if implicit then drop 1 positional else positional) ∧
  "self" ∉ args.
Proof.
  intros Hc Ha. unfold varnames. rewrite Hc, Ha.
  assert (Hsplit : (match ndefaults with
                    | 0 => (spec_args, [])
                    | S _ => (take (length spec_args - ndefaults) spec_args,
                              drop (length spec_args - ndefaults) spec_args)
                    end)
                   = (take (length spec_args - ndefaults) spec_args,
                      drop (length spec_args - ndefaults) spec_args)).
  { destruct ndefaults; [|done].
    by rewrite Nat.sub_0_r, firstn_all, drop_all. }
  rewrite Hsplit. clear Hsplit.
  set (positional := take (length spec_args - ndefaults) spec_args).
  unfold str_in. case_bool_decide as Hself; [done|].
  intros [= <- <-].
  split; [apply take_drop|]. split; [rewrite length_drop; lia|].
  split; [|done].
  destruct positional as [|a0 rest]; [done|].
  by destruct (ismethod func || (qualname_dotted func && bool_decide (a0 = "self"))).
Qed.

(** X2: the only exception [varnames] raises is [AssertionError], and only
    for a callable without memo whose argument specification has an
    argument called [self]; a callable no argument of which is called
    [self] always gets its names. *)
Theorem varnames_fails_only_on_self {X} func e :
  @varnames X func = Raise e →
  e = AssertionError ∧ varnames_cache func = None ∧
  ∃ spec_args ndefaults,
    argspec func = Some (spec_args, ndefaults) ∧ "self" ∈ spec_args.
Proof.
  unfold varnames. destruct (varnames_cache func); [done|].
  destruct (argspec func) as [[spec_args ndefaults]|]; [|done].
  set (split := match ndefaults with
                | 0 => (spec_args, [])
                | S _ => (take (length spec_args - ndefaults) spec_args,
                          drop (length spec_args - ndefaults) spec_args)
                end).
  assert (Hsub : split.1 ⊆ spec_args).
  { subst split. destruct ndefaults; simpl; [done|].
    intros x Hx. apply elem_of_take in Hx as (i & Hi & _).
    by eapply list_elem_of_lookup_2. }
  destruct split as [positional defaults]. simpl in Hsub.
  unfold str_in. case_bool_decide as Hself; [|done].
  intros [= <-]. split; [done|]. split; [done|].
  exists spec_args, ndefaults. split; [done|]. apply Hsub.
  destruct positional as [|a0 rest]; [done|].
  destruct (ismethod func || (qualname_dotted func && bool_decide (a0 = "self")));
    [by right|done].
Qed.

(** ** Markers and option dictionaries *)

Lemma lookup_setdefault key value d k :
  setdefault key value d !! k =
  match d !! k with
  | Some v => Some v
  | None => if decide (key = k) then Some value else None
  end.
Proof.
  unfold setdefault. destruct (d !! key) as [v|] eqn:Hkey.
  - destruct (d !! k) eqn:Hk; [done|]. case_decide; [congruence|done].
  - rewrite lookup_insert. case_decide as Heq; [subst; by rewrite Hkey|].
    by destruct (d !! k).
Qed.

Lemma lookup_normalize_hookimpl_opts opts k :
  normalize_hookimpl_opts opts !! k =
  match opts !! k with
  | Some v => Some v
  | None =>
    if bool_decide (k ∈ ["tryfirst"; "trylast"; "hookwrapper"; "optionalhook"])
    then Some (PyBool false) else None
  end.
Proof.
  unfold normalize_hookimpl_opts. rewrite !lookup_setdefault.
  destruct (opts !! k) as [v|]; [done|].
  case_bool_decide as Hk.
  - rewrite !elem_of_cons, elem_of_nil in Hk.
    destruct Hk as [->|[->|[->|[->|[]]]]]; done.
  - rewrite !elem_of_cons, elem_of_nil in Hk.
    repeat case_decide; subst; naive_solver.
Qed.

(** X3: [normalize_hookimpl_opts] keeps every entry the dictionary has,
    leaves each of the four options with a value, which is [False] when the
    option was missing, and adds no other key. *)
Theorem normalize_hookimpl_opts_completes opts :
  opts ⊆ normalize_hookimpl_opts opts ∧
  dom (normalize_hookimpl_opts opts)
    = dom opts ∪ list_to_set ["tryfirst"; "trylast"; "hookwrapper"; "optionalhook"] ∧
  ∀ k, k ∈ ["tryfirst"; "trylast"; "hookwrapper"; "optionalhook"] →
       normalize_hookimpl_opts opts !! k = Some (default (PyBool false) (opts !! k)).
Proof.
  split; [|split].
  - apply map_subseteq_spec. intros k v Hk.
    by rewrite lookup_normalize_hookimpl_opts, Hk.
  - apply set_eq. intros k.
    rewrite elem_of_union, !elem_of_dom, elem_of_list_to_set,
      lookup_normalize_hookimpl_opts.
    destruct (opts !! k) as [v|]; [split; eauto|].
    case_bool_decide as Hin; split.
    + intros _. by right.
    + eauto.
    + by intros [? [=]].
    + by intros [[? [=]]|?].
  - intros k Hk. rewrite lookup_normalize_hookimpl_opts.
    destruct (opts !! k); [done|]. by rewrite bool_decide_eq_true_2.
Qed.

(** X4: normalising twice is normalising once. *)
Theorem normalize_hookimpl_opts_idempotent opts :
  normalize_hookimpl_opts (normalize_hookimpl_opts opts) = normalize_hookimpl_opts opts.
Proof.
  apply map_eq. intros k. rewrite !lookup_normalize_hookimpl_opts.
  destruct (opts !! k) as [v|]; [done|]. by case_bool_decide.
Qed.

Lemma string_length_append (a b : string) :
  String.length (String.append a b) = String.length a + String.length b.
Proof. induction a as [|c a IH]; simpl; [done|]. by rewrite IH. Qed.

Lemma impl_attribute_is_no_spec_attribute (p1 p2 : string) :
  String.append p1 "_impl" ≠ String.append p2 "_spec".
Proof.
  revert p2. induction p1 as [|c p1 IH]; intros [|c2 p2]; simpl.
  - discriminate.
  - intros [= _ H]. apply (f_equal String.length) in H.
    rewrite string_length_append in H. simpl in H. lia.
  - intros [= _ H]. apply (f_equal String.length) in H.
    rewrite string_length_append in H. simpl in H. lia.
  - intros [= _ H]. by apply (IH p2).
Qed.

(** X5: [HookimplMarker] never fails, in either calling form stores the four
    options it was given under the project's [_impl] attribute, stores them
    already normalised, and leaves a specification mark of any project on
    the function as it was. *)
Theorem hookimpl_marker_stores_options project_name func
    (wrapper optional first last : PyVal) :
  let marked := setattr_hookimpl_opts project_name wrapper optional first last func in
  let stored : gmap string PyVal :=
    <["hookwrapper" := wrapper]> (<["optionalhook" := optional]>
      (<["tryfirst" := first]> (<["trylast" := last]> ∅))) in
  HookimplMarker_call project_name (Some func) wrapper optional first last = inl marked ∧
  (∃ decorator,
     HookimplMarker_call project_name None wrapper optional first last = inr decorator
     ∧ decorator func = marked) ∧
  fattrs marked !! String.append project_name "_impl" = Some stored ∧
  stored !! "hookwrapper" = Some wrapper ∧ stored !! "optionalhook" = Some optional ∧
  stored !! "tryfirst" = Some first ∧ stored !! "trylast" = Some last ∧
  normalize_hookimpl_opts stored = stored ∧
  ∀ other, fattrs marked !! String.append other "_spec"
           = fattrs func !! String.append other "_spec".
Proof.
  intros marked stored. subst marked. unfold HookimplMarker_call, setattr_hookimpl_opts.
  simpl. split; [done|]. split; [by eexists|].
  split; [by rewrite lookup_insert_eq|].
  do 4 (split; [by subst stored; simplify_map_eq|]).
  split.
  - apply map_eq. intros k. rewrite lookup_normalize_hookimpl_opts.
    destruct (stored !! k) as [v|] eqn:Hk; [done|].
    case_bool_decide as Hin; [|done]. exfalso.
    rewrite !elem_of_cons, elem_of_nil in Hin. subst stored.
    destruct Hin as [->|[->|[->|[->|[]]]]]; by simplify_map_eq.
  - intros other. rewrite lookup_insert_ne; [done|].
    apply impl_attribute_is_no_spec_attribute.
Qed.

(** X6: a successful [HookspecMarker] stores the three options under the
    project's [_spec] attribute and leaves an implementation mark of any
    project on the function as it was. *)
Theorem hookspec_marker_keeps_impl_mark {X} project_name func
    (firstresult historic warn : PyVal) marked :
  @setattr_hookspec_opts X project_name firstresult historic warn func = Ok marked →
  (∃ stored, fattrs marked !! String.append project_name "_spec" = Some stored
     ∧ stored !! "firstresult" = Some firstresult
     ∧ stored !! "historic" = Some historic
     ∧ stored !! "warn_on_impl" = Some warn) ∧
  ∀ other, fattrs marked !! String.append other "_impl"
           = fattrs func !! String.append other "_impl".
Proof.
  unfold setattr_hookspec_opts.
  destruct (truthy historic && truthy firstresult); [done|].
  intros [= <-]. split.
  - eexists. simpl. rewrite lookup_insert_eq. split; [done|]. by simplify_map_eq.
  - intros other. simpl. rewrite lookup_insert_ne; [done|].
    intros Heq. by apply (impl_attribute_is_no_spec_attribute other project_name).
Qed.

(** ** Insertion and removal on one list *)

Section ChainMore.
Context {Plugin : Type} `{EqDecision Plugin}.
Local Open Scope nat_scope.
Implicit Types (h x m t : @HookImpl Plugin) (pl : option Plugin).
Implicit Types (l regs : list (@HookImpl Plugin)).

(** An insertion puts the new entry somewhere in the list and moves
    nothing else. *)
Lemma add_to_inserts l h :
  ∃ l1 l2, l = l1 ++ l2 ∧ add_to l h = l1 ++ h :: l2.
Proof.
  unfold add_to. destruct (trylast (opts h)); [|destruct (tryfirst (opts h))].
  - by exists [], l.
  - exists l, []. by rewrite app_nil_r.
  - exists (take (last_non_tryfirst l (length l)) l),
           (drop (last_non_tryfirst l (length l)) l).
    by rewrite take_drop.
Qed.

Lemma add_to_perm l h : add_to l h ≡ₚ h :: l.
Proof.
  destruct (add_to_inserts l h) as (l1 & l2 & -> & ->).
  by rewrite Permutation_middle.
Qed.

Lemma foldl_add_to_perm l regs : foldl add_to l regs ≡ₚ l ++ regs.
Proof.
  revert l. induction regs as [|h regs IH]; intros l; simpl.
  - by rewrite app_nil_r.
  - rewrite IH, add_to_perm. simpl. apply Permutation_middle.
Qed.

Lemma remove_none pl l :
  Forall (λ m, plugin m ≠ pl) l → remove pl l = (l, None).
Proof.
  intros Hl. destruct (remove_spec pl l) as [(l1 & x & l2 & -> & Hx & _)|[_ ?]]; [|done].
  apply Forall_app in Hl as [_ Hl]. apply Forall_cons in Hl as [Hl _]. done.
Qed.

Lemma remove_first_owner pl l1 h l2 :
  Forall (λ m, plugin m ≠ pl) l1 → plugin h = pl →
  remove pl (l1 ++ h :: l2) = (l1 ++ l2, Some true).
Proof.
  intros Hl1 Hh. unfold remove.
  assert (Hfirst : ∀ i, first_owned pl i (l1 ++ h :: l2) = Some (i + length l1)).
  { induction Hl1 as [|m l1 Hm _ IH]; intros i; simpl.
    - rewrite bool_decide_eq_true_2 by done. f_equal. lia.
    - rewrite bool_decide_eq_false_2 by done. rewrite IH. f_equal. lia. }
  rewrite Hfirst. simpl. by rewrite delete_middle.
Qed.

(** *** Priority order *)

Lemma priority_le_2 h : priority h ≤ 2.
Proof. unfold priority. destruct (trylast (opts h)), (tryfirst (opts h)); lia. Qed.

Lemma prioritized_delete l1 x l2 :
  prioritized (l1 ++ x :: l2) → prioritized (l1 ++ l2).
Proof.
  intros [Hc Hs]. split.
  - apply Forall_app in Hc as [Hc1 Hc2]. apply Forall_cons in Hc2 as [_ Hc2].
    by apply Forall_app.
  - apply StronglySorted_app in Hs as (Hle & Hs1 & Hs2).
    apply StronglySorted_cons in Hs2 as [_ Hs2].
    apply StronglySorted_app. split; [|done].
    intros x1 x2 H1 H2. apply Hle; [done|]. by right.
Qed.

Lemma prioritized_add l h :
  contradictory h = false → prioritized l → prioritized (add_to l h).
Proof.
  intros Hh [Hc Hs]. split.
  { rewrite add_to_perm. by constructor. }
  destruct (trylast (opts h)) eqn:Hl; [|destruct (tryfirst (opts h)) eqn:Hf].
  - rewrite add_to_trylast by done. constructor; [done|].
    apply Forall_forall. intros m _. unfold priority. rewrite Hl. lia.
  - rewrite add_to_tryfirst by done.
    apply StronglySorted_app. split; [|split; [done|repeat constructor]].
    intros x1 x2 _ Hx2. apply list_elem_of_singleton in Hx2 as ->.
    unfold priority at 2. rewrite Hl, Hf. apply priority_le_2.
  - destruct (last_non_tryfirst_split l) as [Ha Hb].
    set (k := last_non_tryfirst l (length l)) in *.
    rewrite <- (take_drop k l) in Hs, Hc |- *.
    rewrite add_to_normal by done.
    apply StronglySorted_app in Hs as (Hle & Hs1 & Hs2).
    assert (Hlow : ∀ m, m ∈ take k l → priority m ≤ 1).
    { intros m Hm. destruct (take k l) as [|z a _] using rev_ind; [by inv Hm|].
      assert (Hz : priority z ≤ 1).
      { specialize (Ha z). rewrite last_snoc in Ha. specialize (Ha eq_refl).
        unfold priority, is_tryfirst in *. rewrite Ha.
        destruct (trylast (opts z)); lia. }
      apply elem_of_app in Hm as [Hm|Hm].
      - apply StronglySorted_app in Hs1 as (Hle1 & _ & _).
        etrans; [apply (Hle1 m z Hm)|done]. by left.
      - by apply list_elem_of_singleton in Hm as ->. }
    assert (Hhigh : ∀ m, m ∈ drop k l → priority m = 2).
    { intros m Hm. rewrite Forall_forall in Hb. specialize (Hb m Hm).
      apply Forall_app in Hc as [_ Hc]. rewrite Forall_forall in Hc.
      specialize (Hc m Hm). unfold priority, contradictory, is_tryfirst in *.
      rewrite Hb in Hc |- *. simpl in Hc. by rewrite Hc. }
    assert (Hp : priority h = 1) by (unfold priority; by rewrite Hl, Hf).
    apply StronglySorted_app. split; [|split; [done|]].
    + intros x1 x2 H1 H2. apply elem_of_cons in H2 as [->|H2].
      * rewrite Hp. by apply Hlow.
      * by apply Hle.
    + constructor; [done|]. apply Forall_forall. intros m Hm.
      rewrite Hp, (Hhigh m Hm). lia.
Qed.

End ChainMore.

(** ** Steps of the caller *)

Section CallerSteps.
Context {Value Plugin Proc UserExn World : Type} `{EqDecision Plugin}.
Local Open Scope nat_scope.
Variable _hookexec :
  World → @HookCaller Value Plugin Proc → list (@HookImpl Plugin) →
  option (gmap string Value) → World * result (exn UserExn) (list Value).
Variable apply_proc : World → Proc → Value → World * result (exn UserExn) unit.

Local Abbreviation St := (@State Value Plugin Proc UserExn World).
Local Abbreviation Prog := (@M Value Plugin Proc UserExn World).
Local Abbreviation step R m :=
  (@caller_step Value Plugin Proc UserExn World R _ m).
Implicit Types (s : St) (h t : @HookImpl Plugin) (hc : @HookCaller Value Plugin Proc).
Implicit Types (l ws nws regs temps : list (@HookImpl Plugin)).
Implicit Types (pl : option Plugin) (R : relation (@HookCaller Value Plugin Proc)).

Lemma step_ret R `{!Reflexive R} {A} (a : A) : step R (ret a).
Proof. by intros s. Qed.

Lemma step_raise R `{!Reflexive R} {A} e : step R (@raise _ _ _ _ _ A e).
Proof. by intros s. Qed.

Lemma step_get_self R `{!Reflexive R} : step R get_self.
Proof. by intros s. Qed.

Lemma step_lift R `{!Reflexive R} {A} (r : result (exn UserExn) A) : step R (lift r).
Proof. by intros s. Qed.

Lemma step_assert R `{!Reflexive R} b : step R (assert_ b).
Proof. by destruct b; intros s. Qed.

Lemma step_warn R `{!Reflexive R} c msg names : step R (warn c msg names).
Proof. by intros s. Qed.

Lemma step_hookexec R `{!Reflexive R} chain kw : step R (hookexec _hookexec chain kw).
Proof. intros s. by rewrite hookexec_run. Qed.

Lemma step_call_proc R `{!Reflexive R} p x : step R (call_proc apply_proc p x).
Proof. intros s. by rewrite call_proc_run. Qed.

Lemma step_update R (f : HookCaller → HookCaller) :
  (∀ hc, R hc (f hc)) → step R (update_self f).
Proof. intros Hf s. apply Hf. Qed.

Lemma step_bind R `{!Transitive R} {A B} (m : Prog A) (k : A → Prog B) :
  step R m → (∀ a, step R (k a)) → step R (bind m k).
Proof.
  intros Hm Hk s. unfold bind. specialize (Hm s).
  destruct (m s) as [[a|e] s1]; [|done]. etrans; [exact Hm|apply Hk].
Qed.

Lemma step_for_each R `{!PreOrder R} {A} (xs : list A) (body : A → Prog ()) :
  (∀ x, step R (body x)) → step R (for_each xs body).
Proof.
  intros Hbody. induction xs as [|x xs IH]; [apply step_ret; apply _|].
  simpl. apply step_bind; [apply _|apply Hbody|done].
Qed.

Lemma step_try_finally R `{!Transitive R} {A} (body : Prog A) (cleanup : Prog ()) :
  step R body → step R cleanup → step R (try_finally body cleanup).
Proof.
  intros Hb Hc s. unfold try_finally. specialize (Hb s).
  destruct (body s) as [r s1]. specialize (Hc s1).
  destruct (cleanup s1) as [[[]|e] s2]; by etrans.
Qed.

(** Decomposition of a program into its steps; an attribute update is left
    to [tac]. *)
Ltac step_with tac :=
  repeat lazymatch goal with
  | |- caller_step _ (mbind _ _) => unfold mbind, M_bind
  | |- caller_step _ (bind _ _) => apply step_bind; [apply _| |intros ?]
  | |- caller_step _ (for_each _ _) => apply step_for_each; [apply _|intros ?]
  | |- caller_step _ (try_finally _ _) => apply step_try_finally; [apply _| |]
  | |- caller_step _ (update_self _) => apply step_update; tac
  | |- caller_step _ (ret _) => apply step_ret; apply _
  | |- caller_step _ (raise _) => apply step_raise; apply _
  | |- caller_step _ get_self => apply step_get_self; apply _
  | |- caller_step _ (lift _) => apply step_lift; apply _
  | |- caller_step _ (assert_ _) => apply step_assert; apply _
  | |- caller_step _ (warn _ _ _) => apply step_warn; apply _
  | |- caller_step _ (hookexec _ _ _) => apply step_hookexec; apply _
  | |- caller_step _ (call_proc _ _ _) => apply step_call_proc; apply _
  | |- caller_step _ (match ?x with _ => _ end) => destruct x
  end.

(** [__call__] and [_maybe_apply_history] leave the caller as it is. *)
Lemma call_keeps_caller args kwargs : step eq (__call__ _hookexec args kwargs).
Proof. unfold __call__. step_with idtac. Qed.

Lemma replay_call_keeps_caller method call :
  step eq (replay_call _hookexec apply_proc method call).
Proof. destruct call. unfold replay_call. step_with idtac. Qed.


(** *** Calls *)

(** X7: the usage errors leave no trace.  A call with positional arguments
    raises [TypeError], a call of a historic caller raises
    [AssertionError], and [call_historic] on a caller without history
    raises [AttributeError]; in each case nothing is dispatched, no warning
    is issued and the caller is unchanged. *)
Theorem usage_errors_leave_no_trace args kwargs proc hkwargs s :
  (args ≠ [] →
   __call__ _hookexec args kwargs s
   = (Raise (TypeError "hook calling supports only keyword arguments"), s)) ∧
  (is_historic (self s) = true →
   __call__ _hookexec [] kwargs s = (Raise AssertionError, s)) ∧
  (is_historic (self s) = false →
   call_historic _hookexec apply_proc proc hkwargs s
   = (Raise (AttributeError "_call_history"), s)).
Proof.
  split; [|split].
  - intros Hargs. by destruct args.
  - intros Hh. unfold __call__. unfold mbind, M_bind, bind, get_self, assert_.
    simpl. by rewrite Hh.
  - unfold is_historic, call_historic. unfold mbind, M_bind, bind, get_self. simpl.
    by destruct (_call_history (self s)).
Qed.

(** X8: on a caller that is not historic a call always dispatches, once,
    over [_nonwrappers + _wrappers]; before that it issues one warning
    exactly when a declared argument name other than [__multicall__] is not
    among the keyword arguments, naming exactly those names, and it never
    warns on a caller without specification. *)
Theorem call_warns_on_missing_arguments kwargs s :
  is_historic (self s) = false →
  let names := default [] (hc_argnames (self s)) in
  let missing : gset string := list_to_set names ∖ {["__multicall__"]} ∖ dom kwargs in
  let chain := _nonwrappers (self s) ++ _wrappers (self s) in
  let out := _hookexec (world s) (self s) chain (Some kwargs) in
  (∀ n, n ∈ missing ↔ n ∈ names ∧ n ≠ "__multicall__" ∧ kwargs !! n = None) ∧
  __call__ _hookexec [] kwargs s =
  (out.2,
   {| self := self s; world := out.1;
      log := log s
             ++ (if bool_decide (missing = ∅) then []
                 else [Warned UserWarning
                         "Argument(s) which are declared in the hookspec can not be found in this hook call"
                         missing])
             ++ [Executed (self s) chain (Some kwargs) out.2] |}).
Proof.
  clear apply_proc. intros Hh names missing chain out. split.
  - intros n. subst missing.
    rewrite !elem_of_difference, elem_of_list_to_set, elem_of_singleton,
      not_elem_of_dom. tauto.
  - unfold __call__. unfold mbind, M_bind, bind, get_self, assert_. simpl.
    rewrite Hh. simpl. subst missing names out chain.
    destruct (hc_argnames (self s)) as [[|n names]|]; cbn [default from_option id].
    + simpl. rewrite hookexec_run. simpl.
      rewrite bool_decide_eq_true_2 by set_solver. reflexivity.
    + cbn -[list_to_set hookexec].
      destruct (bool_decide (list_to_set (n :: names) ∖ {["__multicall__"]}
                             ∖ dom kwargs = (∅ : gset string)));
        unfold ret, warn, emit; cbn -[list_to_set hookexec];
        rewrite hookexec_run; cbn -[list_to_set];
        [reflexivity|]. by rewrite <- (assoc_L (++)).
    + simpl. rewrite hookexec_run. simpl.
      rewrite bool_decide_eq_true_2 by set_solver. reflexivity.
Qed.

Lemma for_each_call_proc_ok p (xs : list Value) s :
  (∀ w x, (apply_proc w p x).2 = Ok ()) →
  (for_each xs (call_proc apply_proc p) s).1 = Ok () ∧
  self (for_each xs (call_proc apply_proc p) s).2 = self s ∧
  log (for_each xs (call_proc apply_proc p) s).2
    = log s ++ map (λ x, Called p x (Ok ())) xs.
Proof.
  intros Hp. revert s. induction xs as [|x xs IH]; intros s.
  - simpl. by rewrite app_nil_r.
  - rewrite for_each_cons, call_proc_run, Hp.
    match goal with |- context [for_each xs _ ?s0] =>
      destruct (IH s0) as (Hr & Hs & Hl) end.
    rewrite Hr, Hs, Hl. simpl. by rewrite <- (assoc_L (++)).
Qed.

(** X9: when the dispatch of a historic call returns and the callback does
    not raise, [call_historic] returns and has applied the callback to each
    result, once, in the order of the results, after the dispatch; without
    a callback nothing is applied. *)
Theorem call_historic_calls_back_in_order proc kwargs s history w res :
  _call_history (self s) = Some history →
  let recorded := set_call_history (history ++ [(default ∅ kwargs, proc)]) (self s) in
  let chain := _nonwrappers (self s) ++ _wrappers (self s) in
  _hookexec (world s) recorded chain kwargs = (w, Ok res) →
  (∀ w p x, (apply_proc w p x).2 = Ok ()) →
  let r := call_historic _hookexec apply_proc proc kwargs s in
  r.1 = Ok () ∧
  log r.2 = log s ++ Executed recorded chain kwargs (Ok res)
            :: match proc with
               | Some p => map (λ x, Called p x (Ok ())) res
               | None => []
               end.
Proof.
  intros Hh recorded chain Hout Hp r. subst r. unfold call_historic.
  unfold mbind, M_bind, bind, get_self, update_self. simpl. rewrite Hh. simpl.
  rewrite hookexec_run. simpl. fold recorded chain. rewrite Hout. simpl.
  destruct proc as [p|]; [|done].
  match goal with |- context [for_each res _ ?s0] =>
    destruct (for_each_call_proc_ok p res s0 (λ w x, Hp w p x)) as (Hr & _ & Hl) end.
  rewrite Hr, Hl. simpl. by rewrite <- (assoc_L (++)).
Qed.

Lemma replay_call_block method call s :
  let r := replay_call _hookexec apply_proc method call s in
  ∃ evs, log r.2 = log s ++ evs ∧
    replay_events (self s) method call evs ∧
    stops_at_first_exception evs r.1.
Proof.
  destruct call as [kw proc]. unfold replay_call, replay_events.
  unfold mbind, M_bind, bind. rewrite hookexec_run. simpl.
  destruct (_hookexec (world s) (self s) [method] (Some kw)).2 as [[|x res]|e] eqn:Hres;
    simpl.
  - eexists [_]. split; [done|]. split; [by exists (Ok [])|]. by repeat constructor.
  - destruct proc as [p|]; simpl.
    + rewrite call_proc_run. simpl. eexists [_; _].
      rewrite <- (assoc_L (++)). split; [done|].
      split; [exists (Ok (x :: res)); by eexists|].
      destruct (apply_proc _ p x).2 as [[]|e]; simpl.
      * by repeat constructor.
      * eexists [_], _. split; [done|]. by repeat constructor.
    + eexists [_]. split; [done|]. split; [by exists (Ok (x :: res))|].
      by repeat constructor.
  - eexists [_]. split; [done|]. split; [by exists (Raise e)|].
    exists [], (Executed (self s) [method] (Some kw) (Raise e)). by repeat constructor.
Qed.

(** X10: whatever the dispatcher and the callbacks do, what
    [_maybe_apply_history] logs is, for the calls of an initial stretch of
    the history and in recording order, one block of events per call: one
    dispatch over the new implementation alone with the recorded keyword
    arguments, then at most one callback application, namely of the call's
    own callback to the first result when there is a result and a callback.
    The replay stops at the first exception: when it raises, the last
    logged event is the dispatch or callback that raised that exception,
    nothing before it raised and the later calls are not replayed; when it
    returns, the whole history was replayed and nothing raised.  On a
    caller without history nothing is logged; the caller is unchanged. *)
Theorem replay_follows_history method s :
  let r := _maybe_apply_history _hookexec apply_proc method s in
  let recorded := default [] (_call_history (self s)) in
  ∃ played rest blocks,
    recorded = played ++ rest ∧
    Forall2 (replay_events (self s) method) played blocks ∧
    log r.2 = log s ++ concat blocks ∧
    stops_at_first_exception (concat blocks) r.1 ∧
    (is_ok r.1 = true → rest = []) ∧
    self r.2 = self s.
Proof.
  intros r recorded.
  assert (Hloop : ∀ calls s',
    let r' := for_each calls (replay_call _hookexec apply_proc method) s' in
    ∃ played rest blocks,
      calls = played ++ rest ∧
      Forall2 (replay_events (self s') method) played blocks ∧
      log r'.2 = log s' ++ concat blocks ∧
      stops_at_first_exception (concat blocks) r'.1 ∧
      (is_ok r'.1 = true → rest = [])).
  { induction calls as [|call calls IH]; intros s'; cbv zeta.
    { exists [], [], []. simpl. rewrite app_nil_r. repeat split; constructor. }
    rewrite for_each_cons.
    destruct (replay_call_block method call s') as (evs1 & Hl1 & Hb1 & Hs1).
    pose proof (replay_call_self _hookexec apply_proc method call s') as Hself.
    destruct (replay_call _hookexec apply_proc method call s') as [[[]|e] s1];
      simpl in *.
    - cbv zeta in IH.
      destruct (IH s1) as (played & rest & blocks & Hcalls & Hall & Hl2 & Hs2 & Hok).
      exists (call :: played), rest, (evs1 :: blocks). simpl.
      rewrite Hself in Hall.
      split; [by rewrite Hcalls|]. split; [by constructor|].
      split; [by rewrite Hl2, Hl1, (assoc_L (++))|]. split; [|done].
      destruct (for_each calls _ s1).1 as [[]|e]; simpl in *.
      + by apply Forall_app.
      + destruct Hs2 as (before & ev & -> & Hbefore & Hev).
        exists (evs1 ++ before), ev. rewrite (assoc_L (++)).
        split; [done|]. split; [by apply Forall_app|done].
    - exists [call], calls, [evs1]. simpl. rewrite app_nil_r.
      split; [done|]. split; [by repeat constructor|]. done. }
  subst r recorded. unfold _maybe_apply_history.
  unfold mbind, M_bind, bind, get_self. simpl.
  destruct (_call_history (self s)) as [history|]; simpl.
  - destruct (Hloop history s) as (played & rest & blocks & H1 & H2 & H3 & H4 & H5).
    exists played, rest, blocks. split_and!; try done.
    apply for_each_self. intros. apply replay_call_self.
  - exists [], [], []. simpl. rewrite app_nil_r. by split_and!.
Qed.

(** *** Registrations and removals *)

(** X11: registering a sequence of implementations, whatever their flags,
    always succeeds and loses or duplicates nothing: [_nonwrappers] then
    holds what it held and the implementations of the sequence that are not
    wrappers, [_wrappers] what it held and the wrappers of the sequence. *)
Theorem registrations_are_kept regs s :
  let r := for_each regs _add_hookimpl s in
  r.1 = Ok () ∧
  _nonwrappers (self r.2)
    ≡ₚ _nonwrappers (self s) ++ filter (λ h, is_wrapper h = false) regs ∧
  _wrappers (self r.2)
    ≡ₚ _wrappers (self s) ++ filter (λ h, is_wrapper h = true) regs.
Proof.
  intros r. subst r.
  destruct (register_all_run regs s) as (Hr & _ & Hnw & Hws & _).
  rewrite Hr, Hnw, Hws. split; [done|]. split; apply foldl_add_to_perm.
Qed.

(** X12: adding an implementation of a plugin that owns nothing in the
    chains and then removing that plugin leaves both chains exactly as they
    were, wherever the implementation was inserted. *)
Theorem add_then_remove_restores_chains h s :
  Forall (λ m, plugin m ≠ plugin h) (_wrappers (self s) ++ _nonwrappers (self s)) →
  let s1 := (_add_hookimpl h s).2 in
  (_remove_plugin (plugin h) s1).1 = Ok () ∧
  _wrappers (self (_remove_plugin (plugin h) s1).2) = _wrappers (self s) ∧
  _nonwrappers (self (_remove_plugin (plugin h) s1).2) = _nonwrappers (self s).
Proof.
  intros Hfree s1. apply Forall_app in Hfree as [Hws Hnws].
  destruct (add_hookimpl_run h s) as (_ & _ & Hnw1 & Hws1 & _). fold s1 in Hnw1, Hws1.
  unfold _remove_plugin. unfold mbind, M_bind, bind, get_self, update_self, ret.
  simpl. rewrite Hnw1, Hws1.
  destruct (is_wrapper h).
  - destruct (add_to_inserts (_wrappers (self s)) h) as (l1 & l2 & Hl & ->).
    rewrite Hl in Hws. apply Forall_app in Hws as [H1 H2].
    rewrite remove_first_owner by done. simpl. by rewrite Hl.
  - rewrite remove_none by done. simpl.
    destruct (add_to_inserts (_nonwrappers (self s)) h) as (l1 & l2 & Hl & ->).
    rewrite Hl in Hnws. apply Forall_app in Hnws as [H1 H2].
    rewrite remove_first_owner by done. simpl. by rewrite Hl.
Qed.

(** *** [call_extra] *)

Lemma set_chains_same hc :
  set_wrappers (_wrappers hc) (set_nonwrappers (_nonwrappers hc) hc) = hc.
Proof. by destruct hc. Qed.

(** X13: without extra callables [call_extra] is the plain call: same
    result, same dispatch, same warnings, same caller. *)
Theorem call_extra_without_extras kwargs s :
  call_extra _hookexec [] kwargs s = __call__ _hookexec [] kwargs s.
Proof.
  unfold call_extra. unfold mbind, M_bind, bind, get_self. cbn -[__call__].
  rewrite try_finally_restore.
  pose proof (call_keeps_caller [] kwargs s) as Hself.
  destruct (__call__ _hookexec [] kwargs s) as [r [hc w evs]].
  cbn [self world log fst snd] in *. subst hc. by rewrite set_chains_same.
Qed.

Lemma register_all_multicall temps s :
  multicall (self (for_each temps _add_hookimpl s).2) =
  if existsb (λ t, str_in "__multicall__" (argnames t)) temps
  then _legacymulticall else multicall (self s).
Proof.
  revert s. induction temps as [|t temps IH]; intros s; [done|].
  rewrite for_each_cons.
  destruct (add_hookimpl_run t s) as (Hr & _ & _ & _ & _ & _ & Hm & _).
  destruct (_add_hookimpl t s) as [r1 s1]. simpl in *. subst r1.
  rewrite IH, Hm.
  destruct (str_in "__multicall__" (argnames t)); simpl; [|done].
  by destruct (existsb _ temps).
Qed.

(** X14: [call_extra] restores the chains but not [multicall]: when the
    parameter names of every extra callable can be extracted, the caller
    is left on [_legacymulticall] if one of them declares [__multicall__],
    and with [multicall] as it was otherwise. *)
Theorem call_extra_keeps_legacy_switch methods kwargs s :
  Forall (λ method, is_ok (@varnames UserExn method) = true) methods →
  multicall (self (call_extra _hookexec methods kwargs s).2) =
  if existsb (λ method, match @varnames UserExn method with
                        | Ok (args, _) => str_in "__multicall__" args
                        | Raise _ => false
                        end) methods
  then _legacymulticall else multicall (self s).
Proof.
  intros Hok.
  assert (∃ temps, Forall2 (λ method t,
    @HookImpl_init Plugin UserExn None "<temp>" method temp_opts = Ok t) methods temps)
    as [temps Htemps].
  { induction Hok as [|method methods Hm _ [temps IH]]; [by exists []|].
    destruct (HookImpl_init_temp (Plugin:=Plugin) method Hm) as [t Ht].
    exists (t :: temps). by constructor. }
  assert (Hex : existsb (λ method, match @varnames UserExn method with
                                   | Ok (args, _) => str_in "__multicall__" args
                                   | Raise _ => false
                                   end) methods
                = existsb (λ t, str_in "__multicall__" (argnames t)) temps).
  { clear -Htemps. induction Htemps as [|method t methods temps Ht _ IH]; [done|].
    simpl. rewrite IH. apply HookImpl_init_attrs in Ht as (_ & _ & _ & _ & ->). done. }
  rewrite Hex. clear Hex.
  unfold call_extra. unfold mbind, M_bind, bind, get_self. cbn -[__call__].
  rewrite (for_each_add_extra methods temps) by done.
  destruct (register_all_run temps s) as (Hr & _).
  pose proof (register_all_multicall temps s) as Hm.
  destruct (for_each temps _add_hookimpl s) as [r1 s1].
  cbn [fst snd] in *. subst r1.
  rewrite try_finally_restore. cbn -[__call__].
  by rewrite <- (call_keeps_caller [] kwargs s1).
Qed.

Lemma add_extra_cases method s :
  (∃ t, @HookImpl_init Plugin UserExn None "<temp>" method temp_opts = Ok t
        ∧ add_extra method s = _add_hookimpl t s)
  ∨ (∃ e, add_extra method s = (Raise e, s)).
Proof.
  unfold add_extra. unfold mbind, M_bind, bind, lift.
  destruct (@HookImpl_init Plugin UserExn None "<temp>" method temp_opts) as [t|e];
    [left|right]; by eexists.
Qed.

Lemma for_each_app {A} (xs ys : list A) (body : A → Prog ()) s :
  for_each (xs ++ ys) body s =
  match for_each xs body s with
  | (Ok _, s1) => for_each ys body s1
  | (Raise e, s1) => (Raise e, s1)
  end.
Proof.
  revert s. induction xs as [|x xs IH]; intros s; [done|].
  simpl. unfold bind. destruct (body x s) as [[[]|e] s1]; [apply IH|done].
Qed.

(** X15: the restoration of [call_extra] does not cover the building of the
    temporary implementations: when the parameter names of one extra
    callable cannot be extracted, [call_extra] raises that exception without
    dispatching, and the implementations built for the callables before it
    stay in [_nonwrappers], right before its trailing tryfirst entries;
    [_wrappers] is unchanged. *)
Theorem call_extra_keeps_extras_when_building_fails built bad rest kwargs s e :
  Forall (λ method, is_ok (@varnames UserExn method) = true) built →
  @varnames UserExn bad = Raise e →
  let r := call_extra _hookexec (built ++ bad :: rest) kwargs s in
  let nws := _nonwrappers (self s) in
  let k := last_non_tryfirst nws (length nws) in
  r.1 = Raise e ∧
  (∃ evs, log r.2 = log s ++ evs ∧ Forall (λ ev, is_warning ev = true) evs) ∧
  _wrappers (self r.2) = _wrappers (self s) ∧
  ∃ temps,
    Forall2 (λ method t,
      @HookImpl_init Plugin UserExn None "<temp>" method temp_opts = Ok t) built temps ∧
    _nonwrappers (self r.2) = take k nws ++ temps ++ drop k nws.
Proof.
  intros Hok Hbad r nws k.
  assert (∃ temps, Forall2 (λ method t,
    @HookImpl_init Plugin UserExn None "<temp>" method temp_opts = Ok t) built temps)
    as [temps Htemps].
  { induction Hok as [|method methods Hm _ [temps IH]]; [by exists []|].
    destruct (HookImpl_init_temp (Plugin:=Plugin) method Hm) as [t Ht].
    exists (t :: temps). by constructor. }
  assert (Hflags : Forall (λ t, is_wrapper t = false
                     ∧ is_trylast t = false ∧ is_tryfirst t = false) temps).
  { clear -Htemps. induction Htemps as [|method t methods temps Ht _ IH]; [done|].
    constructor; [|done].
    apply HookImpl_init_attrs in Ht as (_ & _ & _ & Ho & _).
    unfold is_wrapper, is_trylast, is_tryfirst. by rewrite Ho. }
  destruct (register_all_run temps s)
    as (Hr & _ & Hnw & Hws & _ & _ & evs & Hlog & Hevs).
  rewrite filter_all in Hnw by (eapply Forall_impl; [exact Hflags|]; by intros t (? & _)).
  rewrite filter_none in Hws
    by (eapply Forall_impl; [exact Hflags|]; intros t (-> & _); done).
  rewrite foldl_add_to_normal in Hnw
    by (eapply Forall_impl; [exact Hflags|]; by intros t (_ & ? & ?)).
  assert (Hrun : r = (Raise e, (for_each temps _add_hookimpl s).2)).
  { subst r. unfold call_extra. unfold mbind, M_bind, bind, get_self. cbn -[__call__].
    rewrite for_each_app, (for_each_add_extra built temps) by done.
    destruct (for_each temps _add_hookimpl s) as [r1 s1]. cbn [fst snd] in *.
    subst r1. rewrite for_each_cons.
    destruct (add_extra_cases bad s1) as [(t & Ht & _)|(e' & He)].
    - unfold HookImpl_init in Ht. by rewrite Hbad in Ht.
    - pose proof He as He'. unfold add_extra, HookImpl_init in He'.
      unfold mbind, M_bind, bind, lift in He'. rewrite Hbad in He'.
      injection He' as <-. by rewrite He. }
  rewrite Hrun. simpl. split; [done|]. split; [by exists evs|].
  split; [done|]. by exists temps.
Qed.

(** *** Construction *)

(** X16: the constructor given a specification but no option dictionary
    never succeeds: it raises [AttributeError] when the specification has
    no attribute named after the hook, the exception of [varnames] when the
    parameter names cannot be extracted, and [TypeError] otherwise. *)
Theorem init_needs_spec_opts nm sm s :
  (@__init__ Value Plugin Proc UserExn World nm (Some sm) None s).1 =
  match sm !! nm with
  | None => Raise (AttributeError nm)
  | Some specfunc =>
    match @varnames UserExn specfunc with
    | Raise e => Raise e
    | Ok _ => Raise (TypeError "'NoneType' object is not iterable")
    end
  end.
Proof.
  unfold __init__, set_specification.
  unfold mbind, M_bind, bind, get_self, update_self, assert_, lift, ret, raise. simpl.
  destruct (sm !! nm) as [specfunc|]; [|done]. simpl.
  by destruct (varnames specfunc) as [[args kwargs]|e].
Qed.

(** *** What every sequence of operations keeps *)

#[local] Instance preserved_preorder (P : @HookCaller Value Plugin Proc → Prop) :
  PreOrder (preserved P).
Proof.
  split; [intros hc Hp; exact Hp|]. intros a b c Hab Hbc Ha. by apply Hbc, Hab.
Qed.

#[local] Instance history_grows_preorder :
  PreOrder (@history_grows Value Plugin Proc).
Proof.
  split.
  - intros hc Hs. split; [done|].
    destruct (_call_history hc); [|done]. exists []. by rewrite app_nil_r.
  - intros a b c Hab Hbc Ha. destruct (Hab Ha) as [Hb Hh].
    destruct (Hbc Hb) as [Hc Hh']. split; [done|].
    destruct (_call_history a) as [h|].
    + destruct Hh as [h1 Hh]. rewrite Hh in Hh'. destruct Hh' as [h2 ->].
      exists (h1 ++ h2). by rewrite (assoc_L (++)).
    + by rewrite Hh in Hh'.
Qed.

Lemma step_of_eq R `{!Reflexive R} {A} (m : Prog A) : step eq m → step R m.
Proof. intros Hm s. by rewrite <- (Hm s). Qed.

Lemma history_grows_same hc hc' :
  has_spec hc' = has_spec hc → _call_history hc' = _call_history hc →
  history_grows hc hc'.
Proof.
  intros Hs Hh Hb. rewrite Hs, Hh. split; [done|].
  destruct (_call_history hc); [|done]. exists []. by rewrite app_nil_r.
Qed.

Lemma maybe_apply_history_keeps_caller method :
  step eq (_maybe_apply_history _hookexec apply_proc method).
Proof.
  unfold _maybe_apply_history. step_with idtac. apply replay_call_keeps_caller.
Qed.

Lemma call_historic_self proc kwargs s :
  self (call_historic _hookexec apply_proc proc kwargs s).2 =
  match _call_history (self s) with
  | Some history => set_call_history (history ++ [(default ∅ kwargs, proc)]) (self s)
  | None => self s
  end.
Proof.
  unfold call_historic. unfold mbind, M_bind, bind, get_self, update_self. simpl.
  destruct (_call_history (self s)) as [history|]; [|done]. simpl.
  rewrite hookexec_run. simpl.
  destruct (_hookexec _ _ _ _).2 as [res|e]; simpl; [|done].
  destruct proc as [p|]; [|done].
  match goal with |- context [for_each res _ ?s0] =>
    destruct (for_each_call_proc apply_proc p res s0) as [Hs _] end.
  by rewrite Hs.
Qed.

Lemma set_specification_bound sm o s :
  has_spec (self s) = true →
  (set_specification sm o s).2 = s.
Proof.
  intros Hb. unfold set_specification.
  unfold mbind, M_bind, bind, get_self, assert_. simpl. by rewrite Hb.
Qed.

Lemma history_grows_run_op op s :
  history_grows (self s) (self (run_op _hookexec apply_proc op s)).
Proof.
  destruct op as [sm o|pl|hookimpl|args kwargs|proc kwargs|methods kwargs|method]; simpl.
  - intros Hb. rewrite set_specification_bound by done. by apply history_grows_preorder.
  - revert s. change (step history_grows (_remove_plugin pl)).
    unfold _remove_plugin. step_with ltac:(intros ?; by apply history_grows_same).
  - revert s. change (step history_grows (_add_hookimpl hookimpl)).
    unfold _add_hookimpl. step_with ltac:(intros ?; by apply history_grows_same).
  - apply (step_of_eq history_grows), call_keeps_caller.
  - rewrite call_historic_self. intros Hb.
    destruct (_call_history (self s)) as [history|] eqn:Hh; simpl.
    + split; [done|]. by eexists.
    + by rewrite Hh.
  - revert s. change (step history_grows (call_extra _hookexec methods kwargs)).
    unfold call_extra, add_extra, _add_hookimpl, restore.
    step_with ltac:(intros ?; by apply history_grows_same).
    apply (step_of_eq history_grows), call_keeps_caller.
  - apply (step_of_eq history_grows), maybe_apply_history_keeps_caller.
Qed.

(** X17: on a caller with a specification, no sequence of operations
    unbinds it, shortens or rewrites its call history, or makes a caller
    without history historic: the history after the operations is the
    history before them followed by the calls recorded since. *)
Theorem history_only_grows ops s :
  has_spec (self s) = true →
  has_spec (self (run_ops _hookexec apply_proc ops s)) = true ∧
  match _call_history (self s) with
  | Some history =>
    ∃ later, _call_history (self (run_ops _hookexec apply_proc ops s))
             = Some (history ++ later)
  | None => _call_history (self (run_ops _hookexec apply_proc ops s)) = None
  end.
Proof.
  assert (Hall : history_grows (self s) (self (run_ops _hookexec apply_proc ops s))).
  { revert s. induction ops as [|op ops IH]; intros s; [by apply history_grows_preorder|].
    simpl. etrans; [apply history_grows_run_op|apply IH]. }
  exact Hall.
Qed.

Lemma argnames_run_op op s :
  preserved argnames_wellformed (self s) (self (run_op _hookexec apply_proc op s)).
Proof.
  destruct op as [sm o|pl|hookimpl|args kwargs|proc kwargs|methods kwargs|method]; simpl; revert s.
  - change (step (preserved argnames_wellformed) (set_specification sm o)).
    unfold set_specification.
    step_with ltac:(intros ? Hwf; first [exact Hwf | by eexists]).
  - change (step (preserved argnames_wellformed) (_remove_plugin pl)).
    unfold _remove_plugin. step_with ltac:(by intros ? Hwf).
  - change (step (preserved argnames_wellformed) (_add_hookimpl hookimpl)).
    unfold _add_hookimpl. step_with ltac:(by intros ? Hwf).
  - apply (step_of_eq (preserved argnames_wellformed)), call_keeps_caller.
  - change (step (preserved argnames_wellformed)
              (call_historic _hookexec apply_proc proc kwargs)).
    unfold call_historic. step_with ltac:(by intros ? Hwf).
  - change (step (preserved argnames_wellformed) (call_extra _hookexec methods kwargs)).
    unfold call_extra, add_extra, _add_hookimpl, restore.
    step_with ltac:(by intros ? Hwf).
    apply (step_of_eq (preserved argnames_wellformed)), call_keeps_caller.
  - apply (step_of_eq (preserved argnames_wellformed)), maybe_apply_history_keeps_caller.
Qed.

(** X18: [argnames] keeps the form [set_specification] gives it: on a
    caller whose [argnames] are absent or start with [__multicall__], they
    still are after any sequence of operations. *)
Theorem argnames_stay_wellformed ops s :
  argnames_wellformed (self s) →
  argnames_wellformed (self (run_ops _hookexec apply_proc ops s)).
Proof.
  revert s. induction ops as [|op ops IH]; intros s Hwf; [done|].
  simpl. by apply IH, argnames_run_op.
Qed.

(** *** Properties of the chains that every operation keeps *)

Lemma add_extras_chains methods s :
  ∃ temps, Forall (λ t, opts t = temp_opts) temps ∧
    _nonwrappers (self (for_each methods add_extra s).2)
      = foldl add_to (_nonwrappers (self s)) temps ∧
    _wrappers (self (for_each methods add_extra s).2) = _wrappers (self s).
Proof.
  revert s. induction methods as [|method methods IH]; intros s.
  { by exists []. }
  rewrite for_each_cons.
  destruct (add_extra_cases method s) as [(t & Ht & ->)|(e & ->)].
  - apply HookImpl_init_attrs in Ht as (_ & _ & _ & Ho & _).
    destruct (add_hookimpl_run t s) as (Hr & _ & Hnw & Hws & _).
    destruct (_add_hookimpl t s) as [r1 s1]. simpl in *. subst r1.
    destruct (IH s1) as (temps & Htemps & Hnw' & Hws').
    exists (t :: temps). split; [by constructor|].
    unfold is_wrapper in *. rewrite Ho in Hnw, Hws. simpl in *.
    by rewrite Hnw', Hws', Hnw, Hws.
  - by exists [].
Qed.

(** The chains [call_extra] leaves: the ones it found when the invocation
    was reached, the ones the extras built so far were added to when
    building an extra raised. *)
Lemma call_extra_chains methods kwargs s :
  (_wrappers (self (call_extra _hookexec methods kwargs s).2) = _wrappers (self s)
   ∧ _nonwrappers (self (call_extra _hookexec methods kwargs s).2)
     = _nonwrappers (self s))
  ∨ (_wrappers (self (call_extra _hookexec methods kwargs s).2)
     = _wrappers (self (for_each methods add_extra s).2)
     ∧ _nonwrappers (self (call_extra _hookexec methods kwargs s).2)
       = _nonwrappers (self (for_each methods add_extra s).2)).
Proof.
  unfold call_extra. unfold mbind, M_bind, bind, get_self. cbn -[__call__].
  destruct (for_each methods add_extra s) as [[[]|e] s1]; cbn -[__call__].
  - left. by rewrite try_finally_restore.
  - by right.
Qed.

Section ChainInvariant.
Variables (Pw Pn : list (@HookImpl Plugin) → Prop) (ok : @HookImpl Plugin → Prop).
Hypothesis Pw_add : ∀ l h, is_wrapper h = true → ok h → Pw l → Pw (add_to l h).
Hypothesis Pn_add : ∀ l h, is_wrapper h = false → ok h → Pn l → Pn (add_to l h).
Hypothesis Pw_del : ∀ l x l', Pw (l ++ x :: l') → Pw (l ++ l').
Hypothesis Pn_del : ∀ l x l', Pn (l ++ x :: l') → Pn (l ++ l').
Hypothesis ok_temp : ∀ t, opts t = temp_opts → ok t.

Lemma chains_add h s :
  ok h → chains_satisfy Pw Pn (self s) →
  chains_satisfy Pw Pn (self (_add_hookimpl h s).2).
Proof using Pw_add Pn_add.
  intros Hok [Hw Hn].
  destruct (add_hookimpl_run h s) as (_ & _ & Hnw & Hws & _).
  split; [rewrite Hws|rewrite Hnw]; destruct (is_wrapper h) eqn:Hwr; auto.
Qed.

Lemma chains_remove pl s :
  chains_satisfy Pw Pn (self s) →
  chains_satisfy Pw Pn (self (_remove_plugin pl s).2).
Proof using Pw_del Pn_del.
  intros [Hw Hn]. unfold _remove_plugin.
  unfold mbind, M_bind, bind, get_self, update_self, ret, raise. simpl.
  destruct (remove_spec pl (_wrappers (self s)))
    as [(l1 & x & l2 & Hws & _ & _ & ->)|[_ ->]]; simpl.
  { split; [|done]. rewrite Hws in Hw. by eapply Pw_del. }
  destruct (remove_spec pl (_nonwrappers (self s)))
    as [(l1 & x & l2 & Hnws & _ & _ & ->)|[_ ->]]; simpl; [|done].
  split; [done|]. rewrite Hnws in Hn. by eapply Pn_del.
Qed.

Lemma chains_call_extra methods kwargs s :
  chains_satisfy Pw Pn (self s) →
  chains_satisfy Pw Pn (self (call_extra _hookexec methods kwargs s).2).
Proof using Pn_add ok_temp.
  intros [Hw Hn]. unfold chains_satisfy.
  destruct (call_extra_chains methods kwargs s) as [[-> ->]|[-> ->]]; [done|].
  destruct (add_extras_chains methods s) as (temps & Htemps & -> & ->).
  split; [done|]. clear Hw. revert Hn. generalize (_nonwrappers (self s)).
  induction Htemps as [|t temps Ht _ IH]; intros l Hn; [done|].
  simpl. apply IH, Pn_add; [|by apply ok_temp|done].
  unfold is_wrapper. by rewrite Ht.
Qed.

Lemma chains_run_ops ops s :
  Forall (adds_only ok) ops →
  chains_satisfy Pw Pn (self s) →
  chains_satisfy Pw Pn (self (run_ops _hookexec apply_proc ops s)).
Proof using All.
  intros Hops. revert s. induction Hops as [|op ops Hop _ IH]; intros s Hs; [done|].
  simpl. apply IH. clear IH. destruct op as [sm o|pl|hookimpl|args kwargs|proc kwargs|methods kwargs|method]; simpl.
  - revert s Hs.
    change (step (preserved (chains_satisfy Pw Pn)) (set_specification sm o)).
    unfold set_specification. step_with ltac:(by intros ? Hc).
  - by apply chains_remove.
  - by apply chains_add.
  - by rewrite <- (call_keeps_caller args kwargs s).
  - revert s Hs.
    change (step (preserved (chains_satisfy Pw Pn))
              (call_historic _hookexec apply_proc proc kwargs)).
    unfold call_historic. step_with ltac:(by intros ? Hc).
  - by apply chains_call_extra.
  - by rewrite <- (maybe_apply_history_keeps_caller method s).
Qed.

End ChainInvariant.

(** X19: wrappers and the other implementations never mix: on a caller
    whose [_wrappers] holds only wrappers and whose [_nonwrappers] holds
    none, this is still so after any sequence of operations, the temporary
    implementations of [call_extra] included. *)
Theorem wrappers_stay_apart ops s :
  chains_satisfy (Forall (λ h, is_wrapper h = true))
                 (Forall (λ h, is_wrapper h = false)) (self s) →
  chains_satisfy (Forall (λ h, is_wrapper h = true))
                 (Forall (λ h, is_wrapper h = false))
                 (self (run_ops _hookexec apply_proc ops s)).
Proof.
  apply (chains_run_ops _ _ (λ _, True)).
  - intros l h Hh _ Hl. rewrite add_to_perm. by constructor.
  - intros l h Hh _ Hl. rewrite add_to_perm. by constructor.
  - intros l x l' Hl. apply Forall_app in Hl as [H1 H2].
    apply Forall_cons in H2 as [_ H2]. by apply Forall_app.
  - intros l x l' Hl. apply Forall_app in Hl as [H1 H2].
    apply Forall_cons in H2 as [_ H2]. by apply Forall_app.
  - done.
  - apply Forall_forall. intros op _. by destruct op.
Qed.

(** X20: the priority order is an invariant of the caller: when both
    chains hold no implementation marked both tryfirst and trylast and have
    their trylast entries before their normal ones and these before their
    tryfirst ones, they still do after any sequence of operations that adds
    no implementation marked both ways; in particular removals and the
    temporary implementations of [call_extra] never break the order. *)
Theorem priority_order_is_kept ops s :
  Forall (adds_only (λ h, contradictory h = false)) ops →
  chains_satisfy prioritized prioritized (self s) →
  chains_satisfy prioritized prioritized (self (run_ops _hookexec apply_proc ops s)).
Proof.
  apply chains_run_ops.
  - intros l h _. apply prioritized_add.
  - intros l h _. apply prioritized_add.
  - apply prioritized_delete.
  - apply prioritized_delete.
  - intros t Ht. unfold contradictory. by rewrite Ht.
Qed.

End CallerSteps.

(** * Worked instances

    The theorems above applied in the concrete world of [Demo], and the
    inputs on which the statements of the specification that the code does
    not follow fail. *)

Import Demo.

(** Two trylast implementations end up most recent first, where the
    specification states registration order. *)
Lemma stated_order_counterexample :
  _nonwrappers (self (for_each [late1; late2] _add_hookimpl (start unbound)).2)
    = [late2; late1]
  ∧ stated_order [late1; late2] = [late1; late2]
  ∧ _nonwrappers (self (for_each [late1; late2] _add_hookimpl (start unbound)).2)
    ≠ stated_order [late1; late2].
Proof. split; [reflexivity|]. split; [reflexivity|]. vm_compute. discriminate. Qed.

Lemma chain_order_of_registrations_witness :
  let regs := [plain; late1; around; early; late2] in
  let s1 := (for_each regs _add_hookimpl (start unbound)).2 in
  let chain := _nonwrappers (self s1) ++ _wrappers (self s1) in
  (for_each regs _add_hookimpl (start unbound)).1 = Ok () ∧
  _nonwrappers (self s1) = chain_order (filter (λ h, is_wrapper h = false) regs) ∧
  _wrappers (self s1) = chain_order (filter (λ h, is_wrapper h = true) regs) ∧
  (__call__ exec [] {[ "a" := 1; "b" := 2 ]} s1).1
    = (exec (world s1) (self s1) chain (Some {[ "a" := 1; "b" := 2 ]})).2 ∧
  last (log (__call__ exec [] {[ "a" := 1; "b" := 2 ]} s1).2)
    = Some (Executed (self s1) chain (Some {[ "a" := 1; "b" := 2 ]})
              (__call__ exec [] {[ "a" := 1; "b" := 2 ]} s1).1).
Proof.
  apply (chain_order_of_registrations exec
           [plain; late1; around; early; late2] {[ "a" := 1; "b" := 2 ]}
           (start unbound)); [reflexivity..|].
  repeat constructor.
Defined.

Example registrations_chain :
  _nonwrappers (self (for_each [plain; late1; around; early; late2]
                        _add_hookimpl (start unbound)).2)
  = [late2; late1; plain; early].
Proof. reflexivity. Qed.

(** A plugin owning a wrapper and an ordinary implementation loses the
    wrapper, where the specification's search order would delete the
    ordinary implementation. *)
Lemma remove_stated_counterexample :
  let s := start (with_chains [owned_first] [owned_wrapper] unbound) in
  (_remove_plugin (Some 10) s).1 = Ok ()
  ∧ _wrappers (self (_remove_plugin (Some 10) s).2) = []
  ∧ _nonwrappers (self (_remove_plugin (Some 10) s).2) = [owned_first]
  ∧ remove_stated (UserExn:=string) (Some 10) (self s)
    = Ok (with_chains [] [owned_wrapper] unbound)
  ∧ remove_stated (UserExn:=string) (Some 10) (self s)
    ≠ Ok (self (_remove_plugin (Some 10) s).2).
Proof.
  repeat split; try reflexivity. vm_compute. discriminate.
Qed.

Example remove_plugin_not_found :
  (_remove_plugin (Some 11) (start (with_chains [plain] [around] unbound))).1
  = Raise (ValueError "plugin not found").
Proof. reflexivity. Qed.

Lemma remove_plugin_at_most_one_witness :
  let s := start (with_chains [owned_first; plain; owned_second] [] unbound) in
  let r := _remove_plugin (Some 10) s in
  let before := _wrappers (self s) ++ _nonwrappers (self s) in
  let after := _wrappers (self r.2) ++ _nonwrappers (self r.2) in
  r.1 = Ok () ∧
  (_wrappers (self r.2) = _wrappers (self s)
   ∨ _nonwrappers (self r.2) = _nonwrappers (self s)) ∧
  length after + 1 = length before ∧
  ∃ l1 x l2, before = l1 ++ x :: l2 ∧ plugin x = Some 10
    ∧ Forall (λ m, plugin m ≠ Some 10) l1 ∧ after = l1 ++ l2
    ∧ filter (λ m, plugin m = Some 10) before
      = x :: filter (λ m, plugin m = Some 10) after.
Proof.
  apply (remove_plugin_at_most_one (Some 10)
           (start (with_chains [owned_first; plain; owned_second] [] unbound))).
  exists owned_first. split; [|reflexivity]. simpl. left.
Defined.

Example remove_plugin_keeps_the_rest :
  _nonwrappers (self (_remove_plugin (Some 10)
    (start (with_chains [owned_first; plain; owned_second] [] unbound))).2)
  = [plain; owned_second].
Proof. reflexivity. Qed.

(** An implementation marked both tryfirst and trylast is accepted and put
    first in the list. *)
Lemma contradictory_flags_counterexample :
  contradictory both = true
  ∧ (_add_hookimpl both (start (with_chains [plain] [] unbound))).1 = Ok ()
  ∧ _nonwrappers (self (_add_hookimpl both (start (with_chains [plain] [] unbound))).2)
    = [both; plain].
Proof. repeat split; reflexivity. Qed.

Lemma contradictory_flags_accepted_witness :
  let s := start (with_chains [plain] [] unbound) in
  (_add_hookimpl both s).1 = Ok () ∧
  _nonwrappers (self (_add_hookimpl both s).2) = both :: _nonwrappers (self s) ∧
  _wrappers (self (_add_hookimpl both s).2) = _wrappers (self s).
Proof.
  apply (contradictory_flags_accepted both (start (with_chains [plain] [] unbound))).
  reflexivity.
Defined.

(** With an implementation marked both ways in the chain, a normal
    implementation is inserted before it. *)
Example normal_before_contradictory :
  _nonwrappers (self (for_each [both; plain] _add_hookimpl (start unbound)).2)
  = [plain; both].
Proof. reflexivity. Qed.

(** [call_extra] with two extra callables on a chain that ends in a
    tryfirst implementation. *)
Lemma call_extra_restores_witness :
  let s := start (with_chains [plain; early] [around] unbound) in
  let r := call_extra exec [fn ["x"]; fn []] {[ "x" := 3 ]} s in
  _wrappers (self r.2) = [around] ∧ _nonwrappers (self r.2) = [plain; early] ∧
  ∃ temps,
    Forall2 (λ method t,
      @HookImpl_init nat string None "<temp>" method temp_opts = Ok t)
      [fn ["x"]; fn []] temps ∧
    Forall (λ t, plugin t = None ∧ is_wrapper t = false
                 ∧ is_trylast t = false ∧ is_tryfirst t = false) temps ∧
    ∃ hc evs,
      _nonwrappers hc = [plain] ++ temps ++ [early] ∧ _wrappers hc = [around] ∧
      Forall (λ ev, is_warning ev = true) evs ∧
      r.1 = (exec 0 hc (_nonwrappers hc ++ [around]) (Some {[ "x" := 3 ]})).2 ∧
      log r.2 = evs ++ [Executed hc (_nonwrappers hc ++ [around])
                          (Some {[ "x" := 3 ]}) r.1].
Proof.
  apply (call_extra_restores exec [fn ["x"]; fn []] {[ "x" := 3 ]}
           (start (with_chains [plain; early] [around] unbound))).
  repeat constructor.
Defined.

Example call_extra_when_dispatch_raises :
  let s := start (with_chains [plain; boom] [around] unbound) in
  (call_extra exec [fn ["x"]] {[ "x" := 3 ]} s).1 = Raise (Raised "boom")
  ∧ self (call_extra exec [fn ["x"]] {[ "x" := 3 ]} s).2 = self s.
Proof. split; reflexivity. Qed.

(** C3: [call_extra] does not leave the chains as they were in every run.
    Given a callable with the parameter [x] and then a plain function with
    a parameter named [self], on a caller whose chains are empty, it raises
    [AssertionError] while it builds the second temporary implementation,
    in the loop that precedes its [try]: nothing is dispatched, nothing is
    restored, and the implementation built for the first callable is still
    in [_nonwrappers] afterwards. *)
Theorem call_extra_leaves_extras_behind :
  let s := start unbound in
  let r := call_extra exec [fn ["x"]; fn ["self"]] ∅ s in
  r.1 = Raise AssertionError ∧ log r.2 = [] ∧
  _wrappers (self s) = [] ∧ _nonwrappers (self s) = [] ∧
  _wrappers (self r.2) = [] ∧
  _nonwrappers (self r.2) =
    [{| function := fn ["x"]; argnames := ["x"]; kwargnames := [];
        plugin := None; opts := temp_opts; plugin_name := "<temp>" |}].
Proof. repeat split; reflexivity. Qed.


Example replay_calls_back_once :
  let history := [({[ "x" := 1 ]}, Some 5)] in
  log (_maybe_apply_history exec apply double (start (historic history))).2
  = [Executed (historic history) [double] (Some {[ "x" := 1 ]}) (Ok [2]);
     Called 5 2 (Ok ())].
Proof. reflexivity. Qed.

Lemma set_specification_one_shot_witness :
  let opts : gmap string PyVal := {[ "historic" := PyBool true ]} in
  let r := set_specification (UserExn:=string) (World:=nat)
             specs (Some opts) (start unbound) in
  r.1 = Ok () ∧
  has_spec (self r.2) = true ∧
  _specmodule_or_class (self r.2) = Some specs ∧
  hc_argnames (self r.2) = Some ["__multicall__"; "x"] ∧
  hc_kwargnames (self r.2) = Some [] ∧
  _call_history (self r.2) = Some [] ∧
  (set_specification specs (Some opts) r.2).1 = Raise AssertionError.
Proof.
  destruct (proj2 (set_specification_one_shot (UserExn:=string) (World:=nat)
                  specs (Some {[ "historic" := PyBool true ]}) (start unbound))
           eq_refl (fn ["x"]) ["x"] [] {[ "historic" := PyBool true ]}
           eq_refl eq_refl eq_refl)
    as (Hok & Hbound & Hspec & Hargs & Hkwargs & Hhistory & Hagain).
  split; [exact Hok|]. split; [exact Hbound|]. split; [exact Hspec|].
  split; [exact Hargs|]. split; [exact Hkwargs|]. split; [exact Hhistory|].
  exact Hagain.
Defined.

(** A historic call whose dispatch raises is recorded all the same. *)
Lemma call_historic_records_first_witness :
  let s := start (with_chains [boom] [] (historic [])) in
  let recorded := set_call_history [({[ "x" := 1 ]}, Some 5)] (self s) in
  let r := call_historic exec apply (Some 5) (Some {[ "x" := 1 ]}) s in
  self r.2 = recorded ∧
  _call_history (self r.2) = Some [({[ "x" := 1 ]}, Some 5)] ∧
  (∃ evs, log r.2 = Executed recorded [boom] (Some {[ "x" := 1 ]})
                      (Raise (Raised "boom")) :: evs) ∧
  r.1 = Raise (Raised "boom").
Proof.
  destruct (call_historic_records_first exec apply (Some 5) (Some {[ "x" := 1 ]})
              (start (with_chains [boom] [] (historic []))) [] eq_refl)
    as (Hself & Hhist & Hlog & Hraise).
  split; [exact Hself|]. split; [exact Hhist|]. split; [exact Hlog|].
  exact (proj1 (Hraise (Raised "boom") eq_refl)).
Defined.

Lemma multicall_switch_is_permanent_witness :
  let s1 := (_add_hookimpl legacy (start unbound)).2 in
  let ops := [OpCall [] {[ "x" := 1 ]}; OpRemovePlugin (Some 9);
              OpAddHookimpl plain; OpCallExtra [fn ["x"]] {[ "x" := 2 ]}] in
  multicall (self s1) = _legacymulticall ∧
  multicall (self (run_ops exec apply ops s1)) = _legacymulticall ∧
  ∃ evs, log (run_ops exec apply ops s1) = log s1 ++ evs
         ∧ Forall dispatches_legacy evs.
Proof.
  apply (proj1 (multicall_switch_is_permanent exec apply legacy (start unbound)
                  [OpCall [] {[ "x" := 1 ]}; OpRemovePlugin (Some 9);
                   OpAddHookimpl plain; OpCallExtra [fn ["x"]] {[ "x" := 2 ]}])).
  simpl. left.
Defined.

Example multicall_kept_by_plain_implementation :
  multicall (self (_add_hookimpl plain (start unbound)).2) = _multicall.
Proof. reflexivity. Qed.

Lemma hookspec_historic_firstresult_witness :
  @setattr_hookspec_opts string "demo" (PyBool true) (PyBool true) PyNone (fn ["x"])
  = Raise (ValueError "cannot have a historic firstresult hook").
Proof.
  apply (proj1 (proj2 (proj2 (hookspec_historic_firstresult (X:=string)
           "demo" (fn ["x"]) true true PyNone)))).
  split; reflexivity.
Defined.

(** ** Instances of the further properties *)

Lemma varnames_splits_arguments_witness :
  take 2 ["self"; "a"; "b"] ++ ["b"] = ["self"; "a"; "b"] ∧
  length ["b"] = 1 `min` 3 ∧
  ["a"] = drop 1 (take 2 ["self"; "a"; "b"]) ∧
  "self" ∉ ["a"].
Proof.
  apply (varnames_splits_arguments (X:=string) bound_method
           ["self"; "a"; "b"] 1 ["a"] ["b"]); reflexivity.
Defined.

Lemma varnames_fails_only_on_self_witness :
  @AssertionError string = AssertionError ∧ varnames_cache (fn ["self"]) = None ∧
  ∃ spec_args ndefaults,
    argspec (fn ["self"]) = Some (spec_args, ndefaults) ∧ "self" ∈ spec_args.
Proof.
  apply (varnames_fails_only_on_self (X:=string) (fn ["self"]) AssertionError).
  reflexivity.
Defined.

Example normalize_hookimpl_opts_fills_in :
  normalize_hookimpl_opts {[ "tryfirst" := PyBool true ]}
  = {[ "tryfirst" := PyBool true; "trylast" := PyBool false;
       "hookwrapper" := PyBool false; "optionalhook" := PyBool false ]}.
Proof. by vm_compute. Qed.

Lemma hookspec_marker_keeps_impl_mark_witness :
  let func := setattr_hookimpl_opts "demo" (PyBool false) (PyBool false)
                (PyBool true) (PyBool false) (fn ["x"]) in
  let marked := setattr func "demo_spec"
                  (<["firstresult" := PyBool true]>
                   (<["historic" := PyBool false]>
                    (<["warn_on_impl" := PyNone]> ∅))) in
  (∃ stored, fattrs marked !! String.append "demo" "_spec" = Some stored
     ∧ stored !! "firstresult" = Some (PyBool true)
     ∧ stored !! "historic" = Some (PyBool false)
     ∧ stored !! "warn_on_impl" = Some PyNone) ∧
  ∀ other, fattrs marked !! String.append other "_impl"
           = fattrs func !! String.append other "_impl".
Proof.
  apply (hookspec_marker_keeps_impl_mark (X:=string) "demo"
           (setattr_hookimpl_opts "demo" (PyBool false) (PyBool false)
              (PyBool true) (PyBool false) (fn ["x"]))
           (PyBool true) (PyBool false) PyNone).
  reflexivity.
Defined.

Lemma usage_errors_leave_no_trace_witness :
  let s := start (with_chains [plain] [] unbound) in
  let h := start (with_chains [plain] [] (historic [])) in
  __call__ exec [7] ∅ s
    = (Raise (TypeError "hook calling supports only keyword arguments"), s) ∧
  __call__ exec [] ∅ h = (Raise AssertionError, h) ∧
  call_historic exec apply (Some 5) None s
    = (Raise (AttributeError "_call_history"), s).
Proof.
  split; [|split].
  - apply (proj1 (usage_errors_leave_no_trace exec apply [7] ∅ None None
                    (start (with_chains [plain] [] unbound)))).
    discriminate.
  - apply (proj1 (proj2 (usage_errors_leave_no_trace exec apply [] ∅ None None
                           (start (with_chains [plain] [] (historic [])))))).
    reflexivity.
  - apply (proj2 (proj2 (usage_errors_leave_no_trace exec apply [] ∅ (Some 5) None
                           (start (with_chains [plain] [] unbound))))).
    reflexivity.
Defined.

Lemma call_warns_on_missing_arguments_witness :
  let s := start (with_chains [double] [] bound) in
  let kwargs : gmap string nat := {[ "y" := 1 ]} in
  let names := default [] (hc_argnames (self s)) in
  let missing : gset string := list_to_set names ∖ {["__multicall__"]} ∖ dom kwargs in
  let chain := _nonwrappers (self s) ++ _wrappers (self s) in
  let out := exec (world s) (self s) chain (Some kwargs) in
  (∀ n, n ∈ missing ↔ n ∈ names ∧ n ≠ "__multicall__" ∧ kwargs !! n = None) ∧
  __call__ exec [] kwargs s =
  (out.2,
   {| self := self s; world := out.1;
      log := log s
             ++ (if bool_decide (missing = ∅) then []
                 else [Warned UserWarning
                         "Argument(s) which are declared in the hookspec can not be found in this hook call"
                         missing])
             ++ [Executed (self s) chain (Some kwargs) out.2] |}).
Proof.
  apply (call_warns_on_missing_arguments exec {[ "y" := 1 ]}
           (start (with_chains [double] [] bound))).
  reflexivity.
Defined.

Example call_warns_and_dispatches :
  log (__call__ exec [] {[ "y" := 1 ]} (start (with_chains [double] [] bound))).2
  = [Warned UserWarning
       "Argument(s) which are declared in the hookspec can not be found in this hook call"
       {["x"]};
     Executed (with_chains [double] [] bound) [double] (Some {[ "y" := 1 ]}) (Ok [0])].
Proof. by vm_compute. Qed.

Lemma call_historic_calls_back_in_order_witness :
  let s := start (with_chains [double; double] [] bound_historic) in
  let recorded := set_call_history [({[ "x" := 3 ]}, Some 5)] (self s) in
  let r := call_historic exec apply (Some 5) (Some {[ "x" := 3 ]}) s in
  r.1 = Ok () ∧
  log r.2 = Executed recorded [double; double] (Some {[ "x" := 3 ]}) (Ok [6; 6])
            :: [Called 5 6 (Ok ()); Called 5 6 (Ok ())].
Proof.
  exact (call_historic_calls_back_in_order exec apply (Some 5) (Some {[ "x" := 3 ]})
           (start (with_chains [double; double] [] bound_historic)) [] 1 [6; 6]
           eq_refl eq_refl (λ _ _ _, eq_refl)).
Defined.

Example replay_stops_at_the_first_exception :
  let history := [({[ "x" := 1 ]}, Some 5); ({[ "x" := 2 ]}, None)] in
  let r := _maybe_apply_history exec apply boom (start (historic history)) in
  r.1 = Raise (Raised "boom") ∧
  log r.2 = [Executed (historic history) [boom] (Some {[ "x" := 1 ]})
               (Raise (Raised "boom"))].
Proof. split; reflexivity. Qed.

(** A replay over two recorded calls, the first with a callback: the
    callback is applied once, to the single result of the first dispatch. *)
Example replay_of_two_calls :
  let history := [({[ "x" := 1 ]}, Some 5); ({[ "x" := 2 ]}, None)] in
  let r := _maybe_apply_history exec apply double (start (historic history)) in
  r.1 = Ok () ∧
  log r.2 = [Executed (historic history) [double] (Some {[ "x" := 1 ]}) (Ok [2]);
             Called 5 2 (Ok ());
             Executed (historic history) [double] (Some {[ "x" := 2 ]}) (Ok [4])].
Proof. split; reflexivity. Qed.

Lemma add_then_remove_restores_chains_witness :
  let s := start (with_chains [late1; early] [around] unbound) in
  let s1 := (_add_hookimpl plain s).2 in
  (_remove_plugin (Some 3) s1).1 = Ok () ∧
  _wrappers (self (_remove_plugin (Some 3) s1).2) = [around] ∧
  _nonwrappers (self (_remove_plugin (Some 3) s1).2) = [late1; early].
Proof.
  apply (add_then_remove_restores_chains plain
           (start (with_chains [late1; early] [around] unbound))).
  repeat constructor; discriminate.
Defined.

Lemma call_extra_keeps_legacy_switch_witness :
  multicall (self (call_extra exec [fn ["x"]; fn ["__multicall__"; "x"]] ∅
                     (start (with_chains [plain] [] unbound))).2)
  = _legacymulticall.
Proof.
  apply (call_extra_keeps_legacy_switch exec [fn ["x"]; fn ["__multicall__"; "x"]] ∅
           (start (with_chains [plain] [] unbound))).
  repeat constructor.
Defined.

Example init_without_options_raises :
  (__init__ (UserExn:=string) "myhook" (Some specs) None (start unbound)).1
  = Raise (TypeError "'NoneType' object is not iterable").
Proof. reflexivity. Qed.

Lemma history_only_grows_witness :
  let ops := [OpCallHistoric (Some 5) (Some {[ "x" := 1 ]});
              OpSetSpecification specs (Some ∅);
              OpAddHookimpl double;
              OpCallHistoric None None;
              OpCallExtra [fn ["x"]] ∅] in
  let s := start bound_historic in
  has_spec (self (run_ops exec apply ops s)) = true ∧
  ∃ later, _call_history (self (run_ops exec apply ops s)) = Some ([] ++ later).
Proof.
  apply (history_only_grows exec apply
           [OpCallHistoric (Some 5) (Some {[ "x" := 1 ]});
            OpSetSpecification specs (Some ∅);
            OpAddHookimpl double;
            OpCallHistoric None None;
            OpCallExtra [fn ["x"]] ∅]
           (start bound_historic)).
  reflexivity.
Defined.

Example history_after_operations :
  _call_history (self (run_ops exec apply
    [OpCallHistoric (Some 5) (Some {[ "x" := 1 ]});
     OpSetSpecification specs (Some ∅);
     OpAddHookimpl double;
     OpCallHistoric None None] (start bound_historic)))
  = Some [({[ "x" := 1 ]}, Some 5); (∅, None)].
Proof. reflexivity. Qed.

Lemma argnames_stay_wellformed_witness :
  argnames_wellformed
    (self (run_ops exec apply
             [OpSetSpecification specs (Some ∅); OpAddHookimpl plain;
              OpCall [] {[ "x" := 1 ]}] (start unbound))).
Proof.
  apply (argnames_stay_wellformed exec apply
           [OpSetSpecification specs (Some ∅); OpAddHookimpl plain;
            OpCall [] {[ "x" := 1 ]}] (start unbound)).
  exact I.
Defined.

Lemma wrappers_stay_apart_witness :
  chains_satisfy (Forall (λ h : Impl, is_wrapper h = true))
                 (Forall (λ h : Impl, is_wrapper h = false))
    (self (run_ops exec apply
             [OpAddHookimpl around; OpAddHookimpl both; OpCallExtra [fn ["self"]] ∅;
              OpRemovePlugin (Some 6); OpAddHookimpl owned_wrapper]
             (start (with_chains [plain] [] unbound)))).
Proof.
  apply (wrappers_stay_apart exec apply
           [OpAddHookimpl around; OpAddHookimpl both; OpCallExtra [fn ["self"]] ∅;
            OpRemovePlugin (Some 6); OpAddHookimpl owned_wrapper]
           (start (with_chains [plain] [] unbound))).
  split; repeat constructor.
Defined.

Lemma priority_order_is_kept_witness :
  chains_satisfy prioritized prioritized
    (self (run_ops exec apply
             [OpAddHookimpl early; OpAddHookimpl late2; OpCallExtra [fn ["x"]; fn ["self"]] ∅;
              OpRemovePlugin (Some 3); OpAddHookimpl plain]
             (start (with_chains [late1; plain] [around] unbound)))).
Proof.
  apply (priority_order_is_kept exec apply
           [OpAddHookimpl early; OpAddHookimpl late2; OpCallExtra [fn ["x"]; fn ["self"]] ∅;
            OpRemovePlugin (Some 3); OpAddHookimpl plain]
           (start (with_chains [late1; plain] [around] unbound))).
  - repeat constructor.
  - split; (split; [repeat constructor|]); repeat constructor.
Defined.

Example chains_after_extraction_failure_and_removal :
  _nonwrappers (self (run_ops exec apply
    [OpAddHookimpl early; OpAddHookimpl late2; OpCallExtra [fn ["x"]; fn ["self"]] ∅;
     OpRemovePlugin (Some 3); OpAddHookimpl plain]
    (start (with_chains [late1; plain] [around] unbound))))
  = [late2; late1;
     {| function := fn ["x"]; argnames := ["x"]; kwargnames := [];
        plugin := None; opts := temp_opts; plugin_name := "<temp>" |};
     plain; early].
Proof. reflexivity. Qed.

Lemma call_extra_keeps_extras_when_building_fails_witness :
  let s := start (with_chains [plain; early] [around] unbound) in
  let r := call_extra exec ([fn ["x"]] ++ fn ["self"] :: [fn []]) ∅ s in
  r.1 = Raise AssertionError ∧
  (∃ evs, log r.2 = log s ++ evs ∧ Forall (λ ev, is_warning ev = true) evs) ∧
  _wrappers (self r.2) = [around] ∧
  ∃ temps,
    Forall2 (λ method t,
      @HookImpl_init nat string None "<temp>" method temp_opts = Ok t) [fn ["x"]] temps ∧
    _nonwrappers (self r.2) = [plain] ++ temps ++ [early].
Proof.
  apply (call_extra_keeps_extras_when_building_fails exec
           [fn ["x"]] (fn ["self"]) [fn []] ∅
           (start (with_chains [plain; early] [around] unbound)) AssertionError).
  - repeat constructor.
  - reflexivity.
Defined.
